(** * Raptor: the migration orchestrator of [core] (package [raptor])

    A shallow embedding of [SimulatedDB], [Migrator], [NewMigrator],
    [Migrate], [Rollback] and [Status], and the properties of the batch
    ledger that the specification states about them; then the schema
    drivers of package [drivers], the migration of package [migrations]
    and the command line of [main], with the properties their code shows.

    Conventions of the embedding.
    - Go's [int] is taken at its 64-bit width; [NextBatch++] wraps around
      ([wrap_int]).  Batch numbers are [Z].
    - [map[string]int] and [map[string]bool] are [gmap string _]; reading a
      missing key of a [map[string]bool] yields [false] ([index_bool]).
    - A [Migration] is an interface value: its [Name] and the two effectful
      methods [Up] and [Down], which act on the state of the schema executor
      (an arbitrary type [World]) and may return an error.
    - The [Schema] handle carries, next to the executor's state, the log of
      the [Up]/[Down] calls it has received, so that statements about which
      calls were made, and in which order, can be made.
    - Console output of [Migrate] and [Rollback] is not modelled; the table
      printed by [Status] is modelled line by line. *)

From Stdlib Require Import ZArith String Ascii.
From Stdlib Require OrderedTypeEx.
From stdpp Require Import gmap strings list sorting.

Set Default Proof Using "Type".
Set Warnings "-clear-no-such-hyp".

(** ** Go runtime pieces *)

(** Two's complement wrap-around of a 64-bit [int]. *)
Definition wrap_int (z : Z) : Z := ((z + 2 ^ 63) mod 2 ^ 64 - 2 ^ 63)%Z.

(** The largest [int]. *)
Definition max_int : Z := (2 ^ 63 - 1)%Z.

(** Error values: a plain error, or one built by [fmt.Errorf] with the verb
    [%w], which keeps the wrapped error reachable through [Unwrap]. *)
Inductive error : Type :=
| ErrorString (msg : string)
| WrapError (msg : string) (cause : error).

Definition Error (e : error) : string :=
  match e with
  | ErrorString msg => msg
  | WrapError msg _ => msg
  end.

Definition Unwrap (e : error) : option error :=
  match e with
  | ErrorString _ => None
  | WrapError _ cause => Some cause
  end.

(** [fmt.Errorf(prefix + "%s: %w", name, err)]. *)
Definition Errorf_w (prefix name : string) (err : error) : error :=
  WrapError (prefix +:+ name +:+ ": " +:+ Error err) err.

(** [m[k]] on a [map[string]bool]: the zero value when [k] is absent. *)
Definition index_bool (m : gmap string bool) (k : string) : bool :=
  default false (m !! k).

(** [sort.Slice(x, less)], as an insertion sort.  Go does not promise
    stability; nothing below depends on the order of elements that [less]
    does not separate. *)
Fixpoint insert_by {A : Type} (less : A → A → bool) (x : A) (l : list A) : list A :=
  match l with
  | [] => [x]
  | y :: l' => if less y x then y :: insert_by less x l' else x :: y :: l'
  end.

Definition sort_Slice {A : Type} (less : A → A → bool) (l : list A) : list A :=
  foldr (insert_by less) [] l.

(** [sort.Strings]. *)
Definition sort_Strings (l : list string) : list string :=
  sort_Slice String.ltb l.

(** One call received by the schema executor on behalf of a migration, with
    its outcome ([true]: returned [nil]). *)
Inductive call : Type :=
| CallUp (name : string) (ok : bool)
| CallDown (name : string) (ok : bool).

Global Instance call_eq_dec : EqDecision call.
Proof. solve_decision. Defined.

Section raptor.

Context {World : Type}.

(** ** Data model *)

(** [type Migration interface { Name() string; Up(s Schema) error;
    Down(s Schema) error }]. *)
Record Migration : Type := {
  Name : string;
  Up : World → World * option error;
  Down : World → World * option error;
}.

(** The schema executor handed to [Up] and [Down]: its state, and the log
    of the calls made through it. *)
Record Schema : Type := {
  world : World;
  calls : list call;
}.

(** [type SimulatedDB struct { History map[string]int; NextBatch int }]. *)
Record SimulatedDB : Type := {
  History : gmap string Z;
  NextBatch : Z;
}.

(** [type Migrator struct { migrations []Migration; schema Schema;
    db *SimulatedDB }]. *)
Record Migrator : Type := {
  migrations : list Migration;
  schema : Schema;
  db : SimulatedDB;
}.

Definition is_nil (r : option error) : bool :=
  match r with None => true | Some _ => false end.

(** [mig.Up(m.schema)] and [mig.Down(m.schema)]. *)
Definition call_Up (mig : Migration) (s : Schema) : Schema * option error :=
  let '(w, r) := Up mig (world s) in
  ({| world := w; calls := calls s ++ [CallUp (Name mig) (is_nil r)] |}, r).

Definition call_Down (mig : Migration) (s : Schema) : Schema * option error :=
  let '(w, r) := Down mig (world s) in
  ({| world := w; calls := calls s ++ [CallDown (Name mig) (is_nil r)] |}, r).

(** ** SimulatedDB *)

Definition NewSimulatedDB : SimulatedDB :=
  {| History := ∅; NextBatch := 1 |}.

(** The names of the history, sorted. *)
Definition GetRanMigrations (s : SimulatedDB) : list string :=
  sort_Strings ((map_to_list (History s)).*1).

(** The highest batch number recorded, 0 for an empty history. *)
Definition GetLastBatch (s : SimulatedDB) : Z :=
  map_fold (λ _ batch maxBatch, if (maxBatch <? batch)%Z then batch else maxBatch)
    0%Z (History s).

(** ** Migrator *)

Definition NewMigrator (migs : list Migration) (sch : Schema) : Migrator :=
  {| migrations := sort_Slice (λ a b, String.ltb (Name a) (Name b)) migs;
     schema := sch;
     db := NewSimulatedDB |}.

(** [ranSet]: the set built from [GetRanMigrations]. *)
Definition ranSet_of (ranMigrations : list string) : gmap string bool :=
  foldl (λ set name, <[name := true]> set) ∅ ranMigrations.

(** [pending]: the migrations whose name is not in the history, in the
    order of [m.migrations]. *)
Definition pending_of (m : Migrator) : list Migration :=
  let ranSet := ranSet_of (GetRanMigrations (db m)) in
  filter (λ mig, index_bool ranSet (Name mig) = false) (migrations m).

(** The loop of [Migrate] over [pending]: the first failing [Up] returns,
    every successful one records the name under [batch]. *)
Fixpoint apply_pending (batch : Z) (pending : list Migration)
    (sch : Schema) (hist : gmap string Z) : Schema * gmap string Z * option error :=
  match pending with
  | [] => (sch, hist, None)
  | mig :: rest =>
      let '(sch', r) := call_Up mig sch in
      match r with
      | Some err => (sch', hist, Some (Errorf_w "failed to run migration " (Name mig) err))
      | None => apply_pending batch rest sch' (<[Name mig := batch]> hist)
      end
  end.

Definition Migrate (m : Migrator) : Migrator * option error :=
  let pending := pending_of m in
  if (length pending =? 0)%nat then (m, None)
  else
    let batch := NextBatch (db m) in
    match apply_pending batch pending (schema m) (History (db m)) with
    | (sch, hist, Some err) =>
        ({| migrations := migrations m; schema := sch;
            db := {| History := hist; NextBatch := NextBatch (db m) |} |}, Some err)
    | (sch, hist, None) =>
        ({| migrations := migrations m; schema := sch;
            db := {| History := hist; NextBatch := wrap_int (NextBatch (db m) + 1) |} |}, None)
    end.

(** [migrationsInBatch]: the names recorded under [batchToRollback]. *)
Definition migrationsInBatch_of (batchToRollback : Z) (hist : gmap string Z)
    : gmap string bool :=
  map_fold (λ name batch set, if (batch =? batchToRollback)%Z then <[name := true]> set else set)
    ∅ hist.

(** [migrationsToRevert]: the full list scanned backwards, keeping the
    members of the batch. *)
Definition migrationsToRevert_of (m : Migrator) : list Migration :=
  let inBatch := migrationsInBatch_of (GetLastBatch (db m)) (History (db m)) in
  filter (λ mig, index_bool inBatch (Name mig) = true) (reverse (migrations m)).

(** The loop of [Rollback]: the first failing [Down] returns, every
    successful one deletes the name from the history. *)
Fixpoint revert_all (toRevert : list Migration)
    (sch : Schema) (hist : gmap string Z) : Schema * gmap string Z * option error :=
  match toRevert with
  | [] => (sch, hist, None)
  | mig :: rest =>
      let '(sch', r) := call_Down mig sch in
      match r with
      | Some err => (sch', hist, Some (Errorf_w "failed to rollback migration " (Name mig) err))
      | None => revert_all rest sch' (delete (Name mig) hist)
      end
  end.

Definition Rollback (m : Migrator) : Migrator * option error :=
  let batchToRollback := GetLastBatch (db m) in
  if (batchToRollback =? 0)%Z then (m, None)
  else
    let migrationsToRevert := migrationsToRevert_of m in
    if (length migrationsToRevert =? 0)%nat then (m, None)
    else
      match revert_all migrationsToRevert (schema m) (History (db m)) with
      | (sch, hist, Some err) =>
          ({| migrations := migrations m; schema := sch;
              db := {| History := hist; NextBatch := NextBatch (db m) |} |}, Some err)
      | (sch, hist, None) =>
          ({| migrations := migrations m; schema := sch;
              db := {| History := hist; NextBatch := batchToRollback |} |}, None)
      end.

(** The lines printed by [Status]. *)
Inductive line : Type :=
| Title
| Header
| Rule
| Ran (name : string) (batch : Z)
| Pending (name : string)
| FullyUpToDate
| NothingRanYet.

(** The row of one migration, and whether it counts as pending. *)
Definition status_row (hist : gmap string Z) (mig : Migration) : line :=
  match hist !! Name mig with
  | Some batch => Ran (Name mig) batch
  | None => Pending (Name mig)
  end.

Fixpoint status_rows (hist : gmap string Z) (migs : list Migration)
    (pendingCount : nat) : list line * nat :=
  match migs with
  | [] => ([], pendingCount)
  | mig :: rest =>
      let pendingCount' :=
        match hist !! Name mig with Some _ => pendingCount | None => S pendingCount end in
      let '(rows, n) := status_rows hist rest pendingCount' in
      (status_row hist mig :: rows, n)
  end.

Definition Status (m : Migrator) : Migrator * list line :=
  let ranMigrations := GetRanMigrations (db m) in
  let '(rows, pendingCount) := status_rows (History (db m)) (migrations m) 0 in
  let footer :=
    if (pendingCount =? 0)%nat && negb (length ranMigrations =? 0)%nat then [FullyUpToDate]
    else if (length ranMigrations =? 0)%nat then [NothingRanYet]
    else [] in
  (m, [Title; Header; Rule] ++ rows ++ footer ++ [Rule]).

End raptor.

Arguments Migration : clear implicits.
Arguments Schema : clear implicits.
Arguments Migrator : clear implicits.

(** A schema executor that has not been called yet. *)
Definition fresh_schema {World : Type} (w : World) : Schema World :=
  {| world := w; calls := [] |}.

(** ** A scripted executor, for running the model

    The state of the executor is the list of outcomes of the calls still to
    come ([true]: the call succeeds); once the script is used up every call
    succeeds. *)
Definition scripted_call (cause : string) (w : list bool) : list bool * option error :=
  match w with
  | [] => ([], None)
  | true :: w' => (w', None)
  | false :: w' => (w', Some (ErrorString cause))
  end.

Definition scripted (name : string) : Migration (list bool) :=
  {| Name := name;
     Up := scripted_call ("cannot apply " +:+ name);
     Down := scripted_call ("cannot revert " +:+ name) |}.

(** Three migrations, registered out of order, on a scripted executor. *)
Definition demo_migrations : list (Migration (list bool)) :=
  [scripted "003_x"; scripted "001_a"; scripted "002_b"].

Definition demo (w : list bool) : Migrator (list bool) :=
  NewMigrator demo_migrations (fresh_schema w).

(** A ledger in which the pending migrations are not neighbours in the
    sorted list: the middle one of the three is recorded. *)
Definition demo_gap : Migrator (list bool) :=
  {| migrations := migrations (demo []);
     schema := fresh_schema [];
     db := {| History := <["002_b" := 1%Z]> ∅; NextBatch := 2 |} |}.

(** A ledger whose highest batch belongs to a name that is not registered
    (as a persisted history could hold after a migration was removed from
    the program). *)
Definition demo_orphan : Migrator (list bool) :=
  {| migrations := [scripted "001_a"];
     schema := fresh_schema [];
     db := {| History := <["001_a" := 1%Z]> (<["002_gone" := 2%Z]> ∅); NextBatch := 3 |} |}.

(** ** Specification-level helpers

    [record_all batch done hist] is the history after the migrations [done]
    have been recorded under [batch]; [erase_all done hist] the history
    after their names have been deleted. *)
Definition record_all {World : Type} (batch : Z) (done : list (Migration World))
    (hist : gmap string Z) : gmap string Z :=
  foldl (λ h mig, <[Name mig := batch]> h) hist done.

Definition erase_all {World : Type} (done : list (Migration World))
    (hist : gmap string Z) : gmap string Z :=
  foldl (λ h mig, delete (Name mig) h) hist done.

(** The calls logged by successful [Up]s, respectively [Down]s, of a list of
    migrations. *)
Definition ups_ok {World : Type} (done : list (Migration World)) : list call :=
  (λ mig, CallUp (Name mig) true) <$> done.

Definition downs_ok {World : Type} (done : list (Migration World)) : list call :=
  (λ mig, CallDown (Name mig) true) <$> done.

(** ** Runs of a migrator

    Between two calls the environment may change the state of the executor
    (somebody repairs the database); [with_world] is that change. *)
Definition with_world {World : Type} (w : World) (m : Migrator World) : Migrator World :=
  {| migrations := migrations m;
     schema := {| world := w; calls := calls (schema m) |};
     db := db m |}.

(** What happened in one step of a run: a call of [Migrate], [Rollback] or
    [Status] with what it returned, or a change of the executor's state. *)
Inductive event : Type :=
| Migrated (r : option error)
| RolledBack (r : option error)
| Reported
| WorldChanged.

(** [run m0 tr m]: starting from [m0], the steps [tr] (latest first) lead to
    [m]. *)
Inductive run {World : Type} (m0 : Migrator World) : list event → Migrator World → Prop :=
| run_start : run m0 [] m0
| run_Migrate tr m : run m0 tr m → run m0 (Migrated (Migrate m).2 :: tr) (Migrate m).1
| run_Rollback tr m : run m0 tr m → run m0 (RolledBack (Rollback m).2 :: tr) (Rollback m).1
| run_Status tr m : run m0 tr m → run m0 (Reported :: tr) (Status m).1
| run_world tr m w : run m0 tr m → run m0 (WorldChanged :: tr) (with_world w m).

(** The number of [Migrate] calls of a run, and whether none of them
    failed. *)
Definition is_Migrated (ev : event) : bool :=
  match ev with Migrated _ => true | _ => false end.

Definition migrate_calls (tr : list event) : nat :=
  length (List.filter is_Migrated tr).

Definition migrate_failed (ev : event) : bool :=
  match ev with Migrated (Some _) => true | _ => false end.

Definition no_failed_migrate (tr : list event) : bool :=
  forallb (λ ev, negb (migrate_failed ev)) tr.

(** Whether the latest step of a run that was a [Migrate], or a [Rollback]
    returning [nil], is a [Migrate] that returned an error: failed
    [Rollback]s, [Status] calls and changes of the executor's state are
    passed over. *)
Fixpoint ends_in_failed_migrate (tr : list event) : bool :=
  match tr with
  | [] => false
  | Migrated (Some _) :: _ => true
  | Migrated None :: _ => false
  | RolledBack None :: _ => false
  | _ :: tr' => ends_in_failed_migrate tr'
  end.

(** The order no element of which is [less] than its predecessor: what
    [sort.Slice] establishes. *)
Definition not_after {A : Type} (less : A → A → bool) (a b : A) : Prop := less b a = false.

(** Ascending order of names, [a <= b] on Go strings. *)
Definition name_le (a b : string) : Prop := String.leb a b = true.

(** Ascending order of distinct names, [a < b] on Go strings. *)
Definition name_lt (a b : string) : Prop := String.ltb a b = true.

(** The call logged by the failing [Up], respectively [Down], of the first
    migration of [rest], if there is one. *)
Definition failed_up {World : Type} (rest : list (Migration World)) : list call :=
  match rest with [] => [] | failed :: _ => [CallUp (Name failed) false] end.

Definition failed_down {World : Type} (rest : list (Migration World)) : list call :=
  match rest with [] => [] | failed :: _ => [CallDown (Name failed) false] end.

(** ** The order of application, read off the call log

    [applied_order log] lists the names that are applied after the calls of
    [log], in the order in which they were applied: a successful [Up] puts
    the name last, a successful [Down] takes it out, a failed call changes
    nothing. *)
Definition applied_step (acc : list string) (c : call) : list string :=
  match c with
  | CallUp n true => filter (λ k, k ≠ n) acc ++ [n]
  | CallDown n true => filter (λ k, k ≠ n) acc
  | _ => acc
  end.

Definition applied_order (log : list call) : list string :=
  foldl applied_step [] log.

(** The order by batch number first and by name within a batch. *)
Definition batch_name_lt (hist : gmap string Z) (x y : string) : Prop :=
  ∃ bx by_ : Z, hist !! x = Some bx ∧ hist !! y = Some by_
    ∧ ((bx < by_)%Z ∨ bx = by_ ∧ name_lt x y).

(** ** The ledger invariant

    For a run of at most [2^63 - 2] calls of [Migrate] from an empty
    ledger: [NextBatch] lies between 1 and one more than the number of
    [Migrate] calls (so [NextBatch++] has not wrapped), every batch number
    of the history lies between 1 and [NextBatch], every name of the
    history is registered, and as long as no [Migrate] has failed every
    batch number is below [NextBatch]. *)
Record ledger_inv {World : Type} (m0 : Migrator World) (tr : list event)
    (m : Migrator World) : Prop := {
  inv_next : (1 ≤ NextBatch (db m) ≤ Z.of_nat (migrate_calls tr) + 1)%Z;
  inv_batch : ∀ (n : string) (b : Z),
    History (db m) !! n = Some b → (1 ≤ b ≤ NextBatch (db m))%Z;
  inv_registered : ∀ (n : string) (b : Z),
    History (db m) !! n = Some b → ∃ mig, mig ∈ migrations m0 ∧ Name mig = n;
  inv_strict : no_failed_migrate tr = true →
    ∀ (n : string) (b : Z), History (db m) !! n = Some b → (b < NextBatch (db m))%Z;
}.

(** ** The order invariant

    The names of the history are exactly the applied ones, each once; they
    were applied in the order of their batch numbers and, within a batch,
    in the order of their names; and what is recorded under [NextBatch],
    the members of a batch left incomplete, comes before everything that
    is pending. *)
Record order_inv {World : Type} (m : Migrator World) : Prop := {
  ord_nodup : NoDup (applied_order (calls (schema m)));
  ord_dom : ∀ n : string,
    n ∈ applied_order (calls (schema m)) ↔ is_Some (History (db m) !! n);
  ord_sorted :
    StronglySorted (batch_name_lt (History (db m))) (applied_order (calls (schema m)));
  ord_next : ∀ (x : string) (mig : Migration World),
    History (db m) !! x = Some (NextBatch (db m)) → mig ∈ pending_of m →
    name_lt x (Name mig);
}.

(** ** The schema drivers (package [drivers]) and [SimulatedSchema]

    [type Schema interface { CreateTable(name string, columns []string)
    error; DropTable(name string) error }].  A driver acts on a state; the
    drivers of the repository only print, so their state is the list of
    lines they have printed. *)
Record SchemaDriver (World : Type) : Type := {
  CreateTable : string → list string → World → World * option error;
  DropTable : string → World → World * option error;
}.
Arguments CreateTable {World}.
Arguments DropTable {World}.

(** [strings.Join(elems, sep)]. *)
Fixpoint Join (elems : list string) (sep : string) : string :=
  match elems with
  | [] => EmptyString
  | [x] => x
  | x :: rest => x +:+ sep +:+ Join rest sep
  end.

(** [SimulatedSchema]. *)
Definition SimulatedSchema : SchemaDriver (list string) :=
  {| CreateTable name columns out :=
       (out ++ ["  [Simulated Schema] Creating table '" +:+ name
                +:+ "' with columns: " +:+ Join columns ", "], None);
     DropTable name out :=
       (out ++ ["  [Simulated Schema] Dropping table '" +:+ name +:+ "'"], None) |}.

(** [SQLiteSchema]: the statement built by [CreateTable] and [DropTable],
    and the driver that prints it. *)
Definition SQLite_columnsSQL (columns : list string) : string :=
  Join columns " TEXT, " +:+ " TEXT".

Definition SQLite_createStmt (name : string) (columns : list string) : string :=
  "CREATE TABLE IF NOT EXISTS " +:+ name +:+ " (" +:+ SQLite_columnsSQL columns +:+ ");".

Definition dropStmt (quote name : string) : string :=
  "DROP TABLE IF EXISTS " +:+ quote +:+ name +:+ quote +:+ ";".

Definition SQLiteSchema : SchemaDriver (list string) :=
  {| CreateTable name columns out :=
       (out ++ ["[SQLite] Executing: " +:+ SQLite_createStmt name columns], None);
     DropTable name out :=
       (out ++ ["[SQLite] Executing: " +:+ dropStmt EmptyString name], None) |}.

(** The loop [for i, col := range columns] of the MySQL and PostgreSQL
    drivers: the definition of the column at index 0 is built by [first],
    the others by [other]; each is appended to [columnDefs]. *)
Fixpoint columnDefs_loop (first other : string → string) (i : nat)
    (columns : list string) (columnDefs : list string) : list string :=
  match columns with
  | [] => columnDefs
  | col :: rest =>
      let def := if (i =? 0)%nat then first col else other col in
      columnDefs_loop first other (S i) rest (columnDefs ++ [def])
  end.

(** [MySQLSchema]. *)
Definition MySQL_first (col : string) : string :=
  "`" +:+ col +:+ "` INT AUTO_INCREMENT PRIMARY KEY".

Definition MySQL_other (col : string) : string :=
  "`" +:+ col +:+ "` VARCHAR(255) NOT NULL".

Definition MySQL_createStmt (name : string) (columns : list string) : string :=
  "CREATE TABLE IF NOT EXISTS `" +:+ name +:+ "` ("
  +:+ Join (columnDefs_loop MySQL_first MySQL_other 0 columns []) ", "
  +:+ ") ENGINE=InnoDB DEFAULT CHARSET=utf8mb4;".

Definition MySQLSchema : SchemaDriver (list string) :=
  {| CreateTable name columns out :=
       (out ++ ["[MySQL] Executing: " +:+ MySQL_createStmt name columns], None);
     DropTable name out :=
       (out ++ ["[MySQL] Executing: " +:+ dropStmt "`" name], None) |}.

(** [PostgresSchema]. *)
Definition Postgres_first (col : string) : string := col +:+ " SERIAL PRIMARY KEY".

Definition Postgres_other (col : string) : string := col +:+ " VARCHAR(255) NOT NULL".

Definition Postgres_createStmt (name : string) (columns : list string) : string :=
  "CREATE TABLE IF NOT EXISTS " +:+ name +:+ " ("
  +:+ Join (columnDefs_loop Postgres_first Postgres_other 0 columns []) ", "
  +:+ ");".

Definition PostgresSchema : SchemaDriver (list string) :=
  {| CreateTable name columns out :=
       (out ++ ["[PostgreSQL] Executing: " +:+ Postgres_createStmt name columns], None);
     DropTable name out :=
       (out ++ ["[PostgreSQL] Executing: " +:+ dropStmt EmptyString name], None) |}.

(** ** The migration of package [migrations] and the command line

    A migration is always handed the schema of its migrator, so the
    embedding closes it over the driver.  The lines written through [log]
    carry the time of day and are left out. *)
Definition CreateUsersTable {World : Type} (s : SchemaDriver World) : Migration World :=
  {| Name := "001_create_users_table";
     Up := CreateTable s "users" ["id"; "email"; "password"; "created_at"];
     Down := DropTable s "users" |}.

Definition GetMigrations {World : Type} (s : SchemaDriver World) : list (Migration World) :=
  [CreateUsersTable s].

(** [NewSimulatedMigrator]: a migrator on [SimulatedSchema], which has
    printed nothing yet. *)
Definition NewSimulatedMigrator (migs : list (Migration (list string)))
    : Migrator (list string) :=
  NewMigrator migs (fresh_schema []).

(** [main], as a function of [os.Args]: the migrator when the process ends,
    the table printed by [Status], and the exit status (1 after
    [os.Exit(1)] and after [log.Fatalf]).  [command_of] is the command:
    ["status"] unless [os.Args] has a second element. *)
Definition command_of (Args : list string) : string :=
  match Args with _ :: arg :: _ => arg | _ => "status" end.

Definition main (Args : list string) : Migrator (list string) * list line * Z :=
  let allMigrations := GetMigrations SimulatedSchema in
  let mgr := NewSimulatedMigrator allMigrations in
  let command := command_of Args in
  if String.eqb command "migrate" then
    let '(mgr', err) := Migrate mgr in
    (mgr', [], if is_nil err then 0%Z else 1%Z)
  else if String.eqb command "rollback" then
    let '(mgr', err) := Rollback mgr in
    (mgr', [], if is_nil err then 0%Z else 1%Z)
  else if String.eqb command "status" then
    let '(mgr', out) := Status mgr in
    (mgr', out, 0%Z)
  else (mgr, [], 1%Z).

(** A migration none of whose calls can fail. *)
Definition never_fails {World : Type} (mig : Migration World) : Prop :=
  ∀ w : World, (Up mig w).2 = None ∧ (Down mig w).2 = None.

(** ** Facts about the runtime pieces *)

Lemma wrap_int_small (z : Z) :
  (- 2 ^ 63 ≤ z < 2 ^ 63)%Z → wrap_int z = z.
Proof.
  intros Hz. unfold wrap_int.
  rewrite Z.mod_small by lia. lia.
Qed.

Section sorting_facts.
Context {A : Type} (less : A → A → bool).

Lemma insert_by_perm (x : A) (l : list A) : insert_by less x l ≡ₚ x :: l.
Proof.
  induction l as [|y l IH]; simpl; [done|].
  destruct (less y x); [|done].
  rewrite IH. apply Permutation_swap.
Qed.

Lemma sort_Slice_perm (l : list A) : sort_Slice less l ≡ₚ l.
Proof.
  induction l as [|x l IH]; simpl; [done|].
  rewrite insert_by_perm. by f_equiv.
Qed.

Hypothesis less_asym : ∀ a b, less a b = true → less b a = false.

Lemma insert_by_sorted (x : A) (l : list A) :
  Sorted (not_after less) l → Sorted (not_after less) (insert_by less x l).
Proof using less_asym.
  induction 1 as [|y l Hl IH Hy]; simpl.
  { repeat constructor. }
  destruct (less y x) eqn:Hyx.
  - constructor; [done|].
    destruct Hy as [|z l Hyz]; simpl.
    + constructor. by apply less_asym.
    + destruct (less z x); constructor; [done|]. by apply less_asym.
  - constructor; [by constructor|]. by constructor.
Qed.

Lemma sort_Slice_sorted (l : list A) : Sorted (not_after less) (sort_Slice less l).
Proof using less_asym.
  induction l as [|x l IH]; simpl; [constructor|].
  by apply insert_by_sorted.
Qed.
End sorting_facts.

(** Go compares strings byte by byte; [String.ltb] and [String.leb] are
    that order. *)
Lemma string_ltb_asym (a b : string) : String.ltb a b = true → String.ltb b a = false.
Proof.
  unfold String.ltb. rewrite (String.compare_antisym b a).
  by destruct (String.compare a b).
Qed.

Lemma string_ltb_false_leb (a b : string) : String.ltb b a = false ↔ String.leb a b = true.
Proof.
  unfold String.ltb, String.leb. rewrite (String.compare_antisym b a).
  by destruct (String.compare a b).
Qed.

Lemma string_ltb_leb_ne (a b : string) :
  String.ltb a b = true ↔ String.leb a b = true ∧ a ≠ b.
Proof.
  unfold String.ltb, String.leb. split.
  - destruct (String.compare a b) eqn:Hc; try done.
    intros _. split; [done|]. intros ->.
    assert (String.compare b b = Eq) as Hb; [|congruence].
    pose proof (String.compare_antisym b b) as Hs.
    destruct (String.compare b b); done.
  - destruct (String.compare a b) eqn:Hc; try done.
    + apply String.compare_eq_iff in Hc. naive_solver.
    + naive_solver.
Qed.

Lemma index_bool_ranSet_of (l : list string) (n : string) :
  index_bool (ranSet_of l) n = true ↔ n ∈ l.
Proof.
  unfold ranSet_of.
  assert (∀ acc, index_bool (foldl (λ set name, <[name := true]> set) acc l) n = true
                 ↔ n ∈ l ∨ index_bool acc n = true) as H.
  { induction l as [|x l IH]; intros acc; simpl.
    - rewrite elem_of_nil. naive_solver.
    - rewrite IH, elem_of_cons. unfold index_bool.
      destruct (decide (x = n)) as [->|Hne].
      + rewrite lookup_insert_eq. naive_solver.
      + rewrite lookup_insert_ne by done. naive_solver. }
  rewrite H. unfold index_bool. rewrite lookup_empty. naive_solver.
Qed.

Section facts.
Context {World : Type}.
Implicit Types (m : Migrator World) (mig : Migration World) (s : SimulatedDB).
Implicit Types (hist : gmap string Z) (sch : Schema World).

(** *** The ledger queries *)

Lemma elem_of_GetRanMigrations s (n : string) :
  n ∈ GetRanMigrations s ↔ is_Some (History s !! n).
Proof.
  unfold GetRanMigrations, sort_Strings.
  rewrite sort_Slice_perm, list_elem_of_fmap. split.
  - intros [[k v] [-> Hin]]. apply elem_of_map_to_list in Hin. by exists v.
  - intros [v Hv]. exists (n, v). split; [done|]. by apply elem_of_map_to_list.
Qed.

Lemma pending_of_filter m :
  pending_of m = filter (λ mig, History (db m) !! Name mig = None) (migrations m).
Proof.
  unfold pending_of. apply list_filter_iff. intros mig.
  rewrite <- not_true_iff_false, index_bool_ranSet_of, elem_of_GetRanMigrations.
  by rewrite eq_None_not_Some.
Qed.

Lemma GetLastBatch_spec s :
  (0 ≤ GetLastBatch s)%Z
  ∧ (∀ n b, History s !! n = Some b → (b ≤ GetLastBatch s)%Z)
  ∧ (GetLastBatch s = 0%Z ∨ ∃ n, History s !! n = Some (GetLastBatch s)).
Proof.
  unfold GetLastBatch. destruct s as [hist next]; simpl.
  apply (map_fold_weak_ind (λ r h,
    (0 ≤ r)%Z ∧ (∀ n b, h !! n = Some b → (b ≤ r)%Z)
    ∧ (r = 0%Z ∨ ∃ n, h !! n = Some r))).
  - split; [done|]. split; [|by left]. intros n b. by rewrite lookup_empty.
  - intros i x h r Hi (Hr0 & Hub & Hwit). split; [|split].
    + destruct (r <? x)%Z eqn:Hlt; lia.
    + intros n b. destruct (decide (i = n)) as [->|Hne].
      * rewrite lookup_insert_eq. intros [= ->]. destruct (r <? b)%Z eqn:Hlt; lia.
      * rewrite lookup_insert_ne by done. intros Hb%Hub.
        destruct (r <? x)%Z eqn:Hlt; lia.
    + destruct (r <? x)%Z eqn:Hlt.
      * right. exists i. by rewrite lookup_insert_eq.
      * destruct Hwit as [->|[n Hn]]; [by left|].
        right. exists n. rewrite lookup_insert_ne; [done|]. congruence.
Qed.

Lemma GetLastBatch_nonneg s : (0 ≤ GetLastBatch s)%Z.
Proof. apply GetLastBatch_spec. Qed.

Lemma GetLastBatch_ub s (n : string) (b : Z) :
  History s !! n = Some b → (b ≤ GetLastBatch s)%Z.
Proof. apply GetLastBatch_spec. Qed.

Lemma GetLastBatch_witness s :
  GetLastBatch s ≠ 0%Z → ∃ n, History s !! n = Some (GetLastBatch s).
Proof. destruct (GetLastBatch_spec s) as (_ & _ & [?|?]); done. Qed.

(** The highest batch is determined by an upper bound that is attained. *)
Lemma GetLastBatch_eq s (t : Z) :
  (∀ n b, History s !! n = Some b → (b ≤ t)%Z) →
  (∃ n, History s !! n = Some t) → (0 < t)%Z →
  GetLastBatch s = t.
Proof.
  intros Hub [n Hn] Ht.
  pose proof (GetLastBatch_ub s n t Hn).
  destruct (GetLastBatch_spec s) as (_ & _ & [H0|[k Hk]]); [lia|].
  apply Hub in Hk. lia.
Qed.

Lemma index_bool_migrationsInBatch_of (t : Z) hist (n : string) :
  index_bool (migrationsInBatch_of t hist) n = true ↔ hist !! n = Some t.
Proof.
  unfold migrationsInBatch_of.
  apply (map_fold_weak_ind (λ r h, index_bool r n = true ↔ h !! n = Some t)).
  - unfold index_bool. rewrite !lookup_empty. naive_solver.
  - intros i x h r Hi IH.
    destruct (decide (i = n)) as [->|Hne].
    + rewrite lookup_insert_eq. destruct (x =? t)%Z eqn:Hx.
      * apply Z.eqb_eq in Hx as ->. unfold index_bool.
        rewrite lookup_insert_eq. naive_solver.
      * apply Z.eqb_neq in Hx. rewrite IH, Hi. naive_solver.
    + rewrite lookup_insert_ne by done. destruct (x =? t)%Z; [|done].
      unfold index_bool in *. by rewrite lookup_insert_ne.
Qed.

Lemma migrationsToRevert_of_filter m :
  migrationsToRevert_of m =
  reverse (filter (λ mig, History (db m) !! Name mig = Some (GetLastBatch (db m)))
             (migrations m)).
Proof.
  unfold migrationsToRevert_of. rewrite filter_reverse. f_equal.
  apply list_filter_iff. intros mig. apply index_bool_migrationsInBatch_of.
Qed.

End facts.

Section loops.
Context {World : Type}.
Implicit Types (m : Migrator World) (mig : Migration World) (s : SimulatedDB).
Implicit Types (hist : gmap string Z) (sch : Schema World).
Implicit Types (done rest pending : list (Migration World)).

(** *** Recording and erasing *)

Lemma record_all_snoc (batch : Z) done mig hist :
  record_all batch (done ++ [mig]) hist = <[Name mig := batch]> (record_all batch done hist).
Proof. unfold record_all. by rewrite foldl_app. Qed.

Lemma lookup_record_all (batch : Z) done hist (n : string) :
  record_all batch done hist !! n =
  if decide (n ∈ Name <$> done) then Some batch else hist !! n.
Proof.
  revert hist. induction done as [|mig done IH]; intros hist.
  { rewrite decide_False; [done|]. rewrite fmap_nil. apply not_elem_of_nil. }
  change (record_all batch (mig :: done) hist)
    with (record_all batch done (<[Name mig := batch]> hist)).
  rewrite IH, fmap_cons.
  destruct (decide (n ∈ Name <$> done)) as [Hin|Hnin].
  - rewrite decide_True; [done|]. by right.
  - destruct (decide (Name mig = n)) as [<-|Hne].
    + rewrite lookup_insert_eq, decide_True; [done|]. by left.
    + rewrite lookup_insert_ne by done. rewrite decide_False; [done|].
      rewrite elem_of_cons. naive_solver.
Qed.

Lemma lookup_erase_all done hist (n : string) :
  erase_all done hist !! n =
  if decide (n ∈ Name <$> done) then None else hist !! n.
Proof.
  revert hist. induction done as [|mig done IH]; intros hist.
  { rewrite decide_False; [done|]. rewrite fmap_nil. apply not_elem_of_nil. }
  change (erase_all (mig :: done) hist)
    with (erase_all done (delete (Name mig) hist)).
  rewrite IH, fmap_cons.
  destruct (decide (n ∈ Name <$> done)) as [Hin|Hnin].
  - rewrite decide_True; [done|]. by right.
  - destruct (decide (Name mig = n)) as [<-|Hne].
    + rewrite lookup_delete_eq, decide_True; [done|]. by left.
    + rewrite lookup_delete_ne by done. rewrite decide_False; [done|].
      rewrite elem_of_cons. naive_solver.
Qed.

(** *** The two loops

    Each loop splits its input into the migrations whose call succeeded and,
    when it returns an error, the one whose call failed and those never
    reached. *)

Lemma call_Up_calls mig sch sch' r :
  call_Up mig sch = (sch', r) →
  calls sch' = calls sch ++ [CallUp (Name mig) (is_nil r)]
  ∧ (Up mig (world sch)).2 = r.
Proof.
  unfold call_Up. destruct (Up mig (world sch)) as [w r0]. by intros [= <- <-].
Qed.

Lemma call_Down_calls mig sch sch' r :
  call_Down mig sch = (sch', r) →
  calls sch' = calls sch ++ [CallDown (Name mig) (is_nil r)]
  ∧ (Down mig (world sch)).2 = r.
Proof.
  unfold call_Down. destruct (Down mig (world sch)) as [w r0]. by intros [= <- <-].
Qed.

Lemma apply_pending_ok (batch : Z) pending sch hist sch' hist' :
  apply_pending batch pending sch hist = (sch', hist', None) →
  hist' = record_all batch pending hist
  ∧ calls sch' = calls sch ++ ups_ok pending.
Proof.
  revert sch hist. induction pending as [|mig rest IH]; intros sch hist; simpl.
  { intros [= <- <-]. by rewrite app_nil_r. }
  destruct (call_Up mig sch) as [sch1 [err|]] eqn:Hcall; [done|].
  intros [-> Hc]%IH. apply call_Up_calls in Hcall as [Hc1 _].
  split; [done|]. rewrite Hc, Hc1. simpl. by rewrite <- app_assoc.
Qed.

Lemma apply_pending_err (batch : Z) pending sch hist sch' hist' (e : error) :
  apply_pending batch pending sch hist = (sch', hist', Some e) →
  ∃ done failed rest cause w,
    pending = done ++ failed :: rest
    ∧ hist' = record_all batch done hist
    ∧ calls sch' = calls sch ++ ups_ok done ++ [CallUp (Name failed) false]
    ∧ (Up failed w).2 = Some cause
    ∧ e = Errorf_w "failed to run migration " (Name failed) cause.
Proof.
  revert sch hist. induction pending as [|mig rest IH]; intros sch hist; simpl; [done|].
  destruct (call_Up mig sch) as [sch1 [err|]] eqn:Hcall.
  - intros [= <- <- <-]. apply call_Up_calls in Hcall as [Hc1 Hup].
    exists [], mig, rest, err, (world sch). by rewrite Hc1.
  - intros (done & failed & rest' & cause & w & -> & -> & Hc & Hup & ->)%IH.
    apply call_Up_calls in Hcall as [Hc1 _].
    exists (mig :: done), failed, rest', cause, w. split_and!; try done.
    rewrite Hc, Hc1. simpl. by rewrite <- app_assoc.
Qed.

Lemma revert_all_ok pending sch hist sch' hist' :
  revert_all pending sch hist = (sch', hist', None) →
  hist' = erase_all pending hist
  ∧ calls sch' = calls sch ++ downs_ok pending.
Proof.
  revert sch hist. induction pending as [|mig rest IH]; intros sch hist; simpl.
  { intros [= <- <-]. by rewrite app_nil_r. }
  destruct (call_Down mig sch) as [sch1 [err|]] eqn:Hcall; [done|].
  intros [-> Hc]%IH. apply call_Down_calls in Hcall as [Hc1 _].
  split; [done|]. rewrite Hc, Hc1. simpl. by rewrite <- app_assoc.
Qed.

Lemma revert_all_err pending sch hist sch' hist' (e : error) :
  revert_all pending sch hist = (sch', hist', Some e) →
  ∃ done failed rest cause w,
    pending = done ++ failed :: rest
    ∧ hist' = erase_all done hist
    ∧ calls sch' = calls sch ++ downs_ok done ++ [CallDown (Name failed) false]
    ∧ (Down failed w).2 = Some cause
    ∧ e = Errorf_w "failed to rollback migration " (Name failed) cause.
Proof.
  revert sch hist. induction pending as [|mig rest IH]; intros sch hist; simpl; [done|].
  destruct (call_Down mig sch) as [sch1 [err|]] eqn:Hcall.
  - intros [= <- <- <-]. apply call_Down_calls in Hcall as [Hc1 Hup].
    exists [], mig, rest, err, (world sch). by rewrite Hc1.
  - intros (done & failed & rest' & cause & w & -> & -> & Hc & Hup & ->)%IH.
    apply call_Down_calls in Hcall as [Hc1 _].
    exists (mig :: done), failed, rest', cause, w. split_and!; try done.
    rewrite Hc, Hc1. simpl. by rewrite <- app_assoc.
Qed.

(** *** [Migrate] and [Rollback], case by case *)

Lemma length_eqb_0 {A : Type} (l : list A) : (length l =? 0)%nat = true ↔ l = [].
Proof. rewrite Nat.eqb_eq. by destruct l. Qed.

Lemma Migrate_up_to_date m : pending_of m = [] → Migrate m = (m, None).
Proof. intros H. unfold Migrate. by rewrite H. Qed.

Lemma Migrate_ok m m' :
  Migrate m = (m', None) →
  (pending_of m = [] ∧ m' = m)
  ∨ (pending_of m ≠ []
     ∧ migrations m' = migrations m
     ∧ History (db m') = record_all (NextBatch (db m)) (pending_of m) (History (db m))
     ∧ NextBatch (db m') = wrap_int (NextBatch (db m) + 1)
     ∧ calls (schema m') = calls (schema m) ++ ups_ok (pending_of m)).
Proof.
  unfold Migrate. destruct (length (pending_of m) =? 0)%nat eqn:Hlen.
  { apply length_eqb_0 in Hlen. intros [= <-]. by left. }
  assert (pending_of m ≠ []) as Hne.
  { intros Hnil. apply length_eqb_0 in Hnil. congruence. }
  destruct (apply_pending _ _ _ _) as [[sch hist] [err|]] eqn:Hloop; [done|].
  apply apply_pending_ok in Hloop as [-> Hc]. intros [= <-]. right. by simpl.
Qed.

Lemma Migrate_err m m' (e : error) :
  Migrate m = (m', Some e) →
  ∃ done failed rest cause w,
    pending_of m = done ++ failed :: rest
    ∧ migrations m' = migrations m
    ∧ History (db m') = record_all (NextBatch (db m)) done (History (db m))
    ∧ NextBatch (db m') = NextBatch (db m)
    ∧ calls (schema m') = calls (schema m) ++ ups_ok done ++ [CallUp (Name failed) false]
    ∧ (Up failed w).2 = Some cause
    ∧ e = Errorf_w "failed to run migration " (Name failed) cause.
Proof.
  unfold Migrate. destruct (length (pending_of m) =? 0)%nat eqn:Hlen; [done|].
  destruct (apply_pending _ _ _ _) as [[sch hist] [err|]] eqn:Hloop; [|done].
  apply apply_pending_err in Hloop
    as (done & failed & rest & cause & w & Hp & -> & Hc & Hup & ->).
  intros [= <- <-]. exists done, failed, rest, cause, w. by simpl.
Qed.

Lemma Rollback_ok m m' :
  Rollback m = (m', None) →
  ((GetLastBatch (db m) = 0%Z ∨ migrationsToRevert_of m = []) ∧ m' = m)
  ∨ (GetLastBatch (db m) ≠ 0%Z ∧ migrationsToRevert_of m ≠ []
     ∧ migrations m' = migrations m
     ∧ History (db m') = erase_all (migrationsToRevert_of m) (History (db m))
     ∧ NextBatch (db m') = GetLastBatch (db m)
     ∧ calls (schema m') = calls (schema m) ++ downs_ok (migrationsToRevert_of m)).
Proof.
  unfold Rollback. destruct (GetLastBatch (db m) =? 0)%Z eqn:Hlast.
  { apply Z.eqb_eq in Hlast. intros [= <-]. left. by split; [left|]. }
  apply Z.eqb_neq in Hlast.
  destruct (length (migrationsToRevert_of m) =? 0)%nat eqn:Hlen.
  { apply length_eqb_0 in Hlen. intros [= <-]. left. by split; [right|]. }
  assert (migrationsToRevert_of m ≠ []) as Hne.
  { intros Hnil. apply length_eqb_0 in Hnil. congruence. }
  destruct (revert_all _ _ _) as [[sch hist] [err|]] eqn:Hloop; [done|].
  apply revert_all_ok in Hloop as [-> Hc]. intros [= <-]. right. by simpl.
Qed.

Lemma Rollback_err m m' (e : error) :
  Rollback m = (m', Some e) →
  ∃ done failed rest cause w,
    migrationsToRevert_of m = done ++ failed :: rest
    ∧ GetLastBatch (db m) ≠ 0%Z
    ∧ migrations m' = migrations m
    ∧ History (db m') = erase_all done (History (db m))
    ∧ NextBatch (db m') = NextBatch (db m)
    ∧ calls (schema m') = calls (schema m) ++ downs_ok done ++ [CallDown (Name failed) false]
    ∧ (Down failed w).2 = Some cause
    ∧ e = Errorf_w "failed to rollback migration " (Name failed) cause.
Proof.
  unfold Rollback. destruct (GetLastBatch (db m) =? 0)%Z eqn:Hlast; [done|].
  apply Z.eqb_neq in Hlast.
  destruct (length (migrationsToRevert_of m) =? 0)%nat eqn:Hlen; [done|].
  destruct (revert_all _ _ _) as [[sch hist] [err|]] eqn:Hloop; [|done].
  apply revert_all_err in Hloop
    as (done & failed & rest & cause & w & Hp & -> & Hc & Hup & ->).
  intros [= <- <-]. exists done, failed, rest, cause, w. by simpl.
Qed.

End loops.

Section claims.
Context {World : Type}.
Implicit Types (m : Migrator World) (mig : Migration World) (s : SimulatedDB).
Implicit Types (hist : gmap string Z) (sch : Schema World) (w : World).
Implicit Types (done rest pending : list (Migration World)).

Lemma filter_ext_in {A : Type} (P Q : A → Prop)
    `{!∀ x, Decision (P x), !∀ x, Decision (Q x)} (l : list A) :
  (∀ x, x ∈ l → P x ↔ Q x) → filter P l = filter Q l.
Proof.
  induction l as [|x l IH]; intros Hext; [done|].
  rewrite !filter_cons. rewrite IH by (intros y Hy; apply Hext; by right).
  destruct (decide (P x)) as [HP|HP], (decide (Q x)) as [HQ|HQ]; try done.
  - destruct HQ. apply Hext; [by left|done].
  - destruct HP. apply Hext; [by left|done].
Qed.

Lemma filter_nil_Forall {A : Type} (P : A → Prop) `{!∀ x, Decision (P x)} (l : list A) :
  (∀ x, x ∈ l → ¬ P x) → filter P l = [].
Proof.
  induction l as [|x l IH]; intros Hall; [done|].
  rewrite filter_cons_False by (apply Hall; by left).
  apply IH. intros y Hy. apply Hall. by right.
Qed.

(** *** What [with_world] leaves alone *)

Lemma pending_of_with_world w m : pending_of (with_world w m) = pending_of m.
Proof. done. Qed.

Lemma migrationsToRevert_of_with_world w m :
  migrationsToRevert_of (with_world w m) = migrationsToRevert_of m.
Proof. done. Qed.

(** A migration is pending exactly when it is registered and its name is
    not in the history. *)
Lemma elem_of_pending_of m mig :
  mig ∈ pending_of m ↔ History (db m) !! Name mig = None ∧ mig ∈ migrations m.
Proof. by rewrite pending_of_filter, list_elem_of_filter. Qed.

Lemma elem_of_migrationsToRevert_of m mig :
  mig ∈ migrationsToRevert_of m
  ↔ History (db m) !! Name mig = Some (GetLastBatch (db m)) ∧ mig ∈ migrations m.
Proof.
  by rewrite migrationsToRevert_of_filter, elem_of_reverse, list_elem_of_filter.
Qed.

(** After a split [pending = done ++ more], what is still pending once
    [done] has been recorded. *)
Lemma pending_after_record (batch : Z) m m1 done more :
  pending_of m = done ++ more →
  migrations m1 = migrations m →
  History (db m1) = record_all batch done (History (db m)) →
  pending_of m1 = filter (λ mig, Name mig ∉ Name <$> done) more.
Proof.
  intros Hsplit Hmigs Hhist.
  rewrite (pending_of_filter m1), Hmigs, Hhist.
  transitivity (filter (λ mig, Name mig ∉ Name <$> done) (pending_of m)).
  - rewrite pending_of_filter, list_filter_filter.
    apply list_filter_iff. intros mig. rewrite lookup_record_all.
    destruct (decide (Name mig ∈ Name <$> done)); naive_solver.
  - rewrite Hsplit, filter_app.
    rewrite (filter_nil_Forall _ done); [done|].
    intros mig Hin Hnot. apply Hnot. by apply list_elem_of_fmap_2.
Qed.

(** With pairwise distinct names nothing of [more] is filtered out. *)
Lemma filter_fresh_names done more :
  NoDup (Name <$> done ++ more) →
  filter (λ mig, Name mig ∉ Name <$> done) more = more.
Proof.
  rewrite fmap_app. intros (_ & Hdisj & _)%NoDup_app.
  induction more as [|mig more IH]; [done|].
  rewrite filter_cons_True.
  - f_equal. apply IH. intros n Hn Hin. apply (Hdisj n Hn). by right.
  - intros Hin. apply (Hdisj _ Hin). by left.
Qed.

Lemma NoDup_names_pending m :
  NoDup (Name <$> migrations m) → NoDup (Name <$> pending_of m).
Proof.
  intros Hnd. rewrite pending_of_filter.
  eapply sublist_NoDup; [done|]. apply fmap_sublist, sublist_filter.
Qed.

(** ** The claims *)

(** C6 (idempotent migrate).  After a [Migrate] that returned [nil], a
    second [Migrate], whatever the state of the executor by then, returns
    [nil] and returns the migrator as it was: the log of executor calls
    has not grown (no [Up] was called) and the ledger, history and
    [NextBatch], is the same. *)
Theorem C6_second_migrate_is_noop m m1 w :
  Migrate m = (m1, None) →
  Migrate (with_world w m1) = (with_world w m1, None)
  ∧ calls (schema (Migrate (with_world w m1)).1) = calls (schema m1)
  ∧ db (Migrate (with_world w m1)).1 = db m1.
Proof.
  intros Hm.
  assert (pending_of m1 = []) as Hnone.
  { apply Migrate_ok in Hm as [[Hp ->]|(Hne & Hmigs & Hhist & _)]; [done|].
    rewrite (pending_after_record (NextBatch (db m)) m m1 (pending_of m) []);
      [done|by rewrite app_nil_r|done|done]. }
  assert (Migrate (with_world w m1) = (with_world w m1, None)) as ->; [|done].
  apply Migrate_up_to_date. by rewrite pending_of_with_world.
Qed.

(** C5 (a failing [Down] stops the rollback).  When [Rollback] returns an
    error, the revert list splits into the migrations reverted so far, the
    one whose [Down] failed, and the rest: the log grows by the successful
    [Down]s and the failing one and by nothing else; every history entry
    whose name is not among the reverted ones is untouched, so the failing
    migration and the ones after it keep their entry under the target
    batch; [NextBatch] is unchanged; and the error carries the name of the
    failing migration in its text and its cause through [Unwrap]. *)
Theorem C5_rollback_failure_stops m m' (e : error) :
  Rollback m = (m', Some e) →
  ∃ done failed rest cause,
    migrationsToRevert_of m = done ++ failed :: rest
    ∧ calls (schema m') = calls (schema m) ++ downs_ok done ++ [CallDown (Name failed) false]
    ∧ (∀ n : string, n ∉ Name <$> done → History (db m') !! n = History (db m) !! n)
    ∧ (∀ mig, mig ∈ failed :: rest → Name mig ∉ Name <$> done →
         History (db m') !! Name mig = Some (GetLastBatch (db m)))
    ∧ NextBatch (db m') = NextBatch (db m)
    ∧ (∃ w, (Down failed w).2 = Some cause)
    ∧ Unwrap e = Some cause
    ∧ Error e = "failed to rollback migration " +:+ Name failed +:+ ": " +:+ Error cause.
Proof.
  intros (done & failed & rest & cause & w & Hsplit & _ & _ & Hhist & Hnext & Hcalls & Hdown & ->)
    %Rollback_err.
  exists done, failed, rest, cause.
  assert (∀ n : string, n ∉ Name <$> done → History (db m') !! n = History (db m) !! n) as Hkeep.
  { intros n Hn. rewrite Hhist, lookup_erase_all. by rewrite decide_False. }
  split_and!; try done; [|by exists w].
  intros mig Hin Hn. rewrite Hkeep by done.
  apply (elem_of_migrationsToRevert_of m). rewrite Hsplit.
  apply elem_of_app. by right.
Qed.

(** C8 (erasure inside the revert loop).  When [Rollback] returns an error,
    every migration whose [Down] succeeded earlier in that call (the log
    shows those calls) was recorded under the target batch before the call
    and has no history entry any more when the error is returned. *)
Theorem C8_reverted_entries_erased_on_failure m m' (e : error) :
  Rollback m = (m', Some e) →
  ∃ done failed rest,
    migrationsToRevert_of m = done ++ failed :: rest
    ∧ calls (schema m') = calls (schema m) ++ downs_ok done ++ [CallDown (Name failed) false]
    ∧ ∀ mig, mig ∈ done →
        History (db m) !! Name mig = Some (GetLastBatch (db m))
        ∧ History (db m') !! Name mig = None.
Proof.
  intros (done & failed & rest & cause & w & Hsplit & _ & _ & Hhist & _ & Hcalls & _)
    %Rollback_err.
  exists done, failed, rest. split_and!; try done.
  intros mig Hin. split.
  - apply (elem_of_migrationsToRevert_of m). rewrite Hsplit.
    apply elem_of_app. by left.
  - rewrite Hhist, lookup_erase_all.
    rewrite decide_True; [done|]. by apply list_elem_of_fmap_2.
Qed.

End claims.

Section claims_shapes.
Context {World : Type}.
Implicit Types (m : Migrator World) (mig : Migration World) (s : SimulatedDB).
Implicit Types (hist : gmap string Z) (sch : Schema World) (w : World).
Implicit Types (done rest pending : list (Migration World)).

(** *** One step, whatever it returns *)

Lemma Migrate_shape m :
  ∃ done rest,
    pending_of m = done ++ rest
    ∧ migrations (Migrate m).1 = migrations m
    ∧ History (db (Migrate m).1) = record_all (NextBatch (db m)) done (History (db m))
    ∧ (NextBatch (db (Migrate m).1) = NextBatch (db m) ∧ (rest = [] → done = [])
       ∨ done ≠ [] ∧ rest = [] ∧ (Migrate m).2 = None
         ∧ NextBatch (db (Migrate m).1) = wrap_int (NextBatch (db m) + 1))
    ∧ ((Migrate m).2 = None → rest = []).
Proof.
  destruct (Migrate m) as [m' [e|]] eqn:Hm; simpl.
  - apply Migrate_err in Hm
      as (done & failed & rest & cause & w & Hsplit & Hmigs & Hhist & Hnext & _).
    exists done, (failed :: rest). split_and!; try done. by left.
  - apply Migrate_ok in Hm as [[Hp ->]|(Hne & Hmigs & Hhist & Hnext & _)].
    + exists [], []. split_and!; try done. by left.
    + exists (pending_of m), []. rewrite app_nil_r. split_and!; try done. by right.
Qed.

Lemma Rollback_shape m :
  ∃ done rest,
    migrationsToRevert_of m = done ++ rest
    ∧ migrations (Rollback m).1 = migrations m
    ∧ History (db (Rollback m).1) = erase_all done (History (db m))
    ∧ (NextBatch (db (Rollback m).1) = NextBatch (db m) ∧ (rest = [] → done = [])
       ∨ done ≠ [] ∧ rest = [] ∧ (Rollback m).2 = None ∧ GetLastBatch (db m) ≠ 0%Z
         ∧ NextBatch (db (Rollback m).1) = GetLastBatch (db m)).
Proof.
  destruct (Rollback m) as [m' [e|]] eqn:Hm; simpl.
  - apply Rollback_err in Hm
      as (done & failed & rest & cause & w & Hsplit & _ & Hmigs & Hhist & Hnext & _).
    exists done, (failed :: rest). split_and!; try done. by left.
  - apply Rollback_ok in Hm as [[_ ->]|(Hlast & Hne & Hmigs & Hhist & Hnext & _)].
    + exists [], (migrationsToRevert_of m). split_and!; try done. left. split; [done|].
      done.
    + exists (migrationsToRevert_of m), []. rewrite app_nil_r. split_and!; try done.
      by right.
Qed.

Lemma Status_id m : (Status m).1 = m.
Proof. unfold Status. by destruct (status_rows _ _ _). Qed.

Lemma run_migrations (m0 : Migrator World) tr m :
  run m0 tr m → migrations m = migrations m0.
Proof.
  induction 1 as [|tr m _ IH|tr m _ IH|tr m _ IH|tr m w _ IH]; try done.
  - destruct (Migrate_shape m) as (? & ? & _ & -> & _). done.
  - destruct (Rollback_shape m) as (? & ? & _ & -> & _). done.
  - by rewrite Status_id.
Qed.

(** The names a step records were pending, the names it erases were
    recorded under the highest batch. *)
Lemma recorded_were_pending m done rest (n : string) :
  pending_of m = done ++ rest → n ∈ Name <$> done →
  History (db m) !! n = None ∧ ∃ mig, mig ∈ migrations m ∧ Name mig = n.
Proof.
  intros Hsplit (mig & -> & Hin)%list_elem_of_fmap.
  assert (mig ∈ pending_of m) as [? ?]%elem_of_pending_of.
  { rewrite Hsplit. apply elem_of_app. by left. }
  split; [done|]. by exists mig.
Qed.

Lemma erased_were_in_last_batch m done rest (n : string) :
  migrationsToRevert_of m = done ++ rest → n ∈ Name <$> done →
  History (db m) !! n = Some (GetLastBatch (db m))
  ∧ ∃ mig, mig ∈ migrations m ∧ Name mig = n.
Proof.
  intros Hsplit (mig & -> & Hin)%list_elem_of_fmap.
  assert (mig ∈ migrationsToRevert_of m) as [? ?]%elem_of_migrationsToRevert_of.
  { rewrite Hsplit. apply elem_of_app. by left. }
  split; [done|]. by exists mig.
Qed.

End claims_shapes.

Section claims_partial.
Context {World : Type}.
Implicit Types (m : Migrator World) (mig : Migration World) (s : SimulatedDB).
Implicit Types (hist : gmap string Z) (sch : Schema World) (w : World).
Implicit Types (done rest pending : list (Migration World)).

(** C4 (partial-batch persistence).  When [Migrate] returns an error, the
    pending list splits into the migrations applied so far, the one whose
    [Up] failed, and the rest.  The applied ones are recorded under [N], the
    value of [NextBatch] when the call began; no other history entry has
    changed, so the failed one and the rest are still unrecorded;
    [NextBatch] is still [N].  A later [Migrate] that returns [nil],
    whatever the state of the executor by then, calls [Up] exactly on the
    migrations that were left unrecorded, in order; with pairwise distinct
    names these are the failed one and the rest; afterwards all of the
    original pending migrations are recorded under [N], and nothing else
    of the history has changed. *)
Theorem C4_partial_batch_persists m m1 (e : error) :
  Migrate m = (m1, Some e) →
  ∃ done failed rest,
    pending_of m = done ++ failed :: rest
    ∧ calls (schema m1) = calls (schema m) ++ ups_ok done ++ [CallUp (Name failed) false]
    ∧ (∀ mig, mig ∈ done → History (db m1) !! Name mig = Some (NextBatch (db m)))
    ∧ (∀ n : string, n ∉ Name <$> done → History (db m1) !! n = History (db m) !! n)
    ∧ (∀ mig, mig ∈ failed :: rest → Name mig ∉ Name <$> done →
         History (db m1) !! Name mig = None)
    ∧ NextBatch (db m1) = NextBatch (db m)
    ∧ ∀ w m2, Migrate (with_world w m1) = (m2, None) →
        let retried := filter (λ mig, Name mig ∉ Name <$> done) (failed :: rest) in
        calls (schema m2) = calls (schema m1) ++ ups_ok retried
        ∧ (NoDup (Name <$> migrations m) → retried = failed :: rest)
        ∧ (∀ mig, mig ∈ done ++ failed :: rest →
             History (db m2) !! Name mig = Some (NextBatch (db m)))
        ∧ (∀ n : string, n ∉ Name <$> (done ++ failed :: rest) →
             History (db m2) !! n = History (db m) !! n).
Proof.
  intros (done & failed & rest & cause & w0 & Hsplit & Hmigs & Hhist & Hnext & Hcalls & _)
    %Migrate_err.
  exists done, failed, rest.
  assert (∀ mig, mig ∈ done → History (db m1) !! Name mig = Some (NextBatch (db m))) as Hdone.
  { intros mig Hin. rewrite Hhist, lookup_record_all.
    rewrite decide_True; [done|]. by apply list_elem_of_fmap_2. }
  assert (∀ n : string, n ∉ Name <$> done → History (db m1) !! n = History (db m) !! n) as Hkeep.
  { intros n Hn. rewrite Hhist, lookup_record_all. by rewrite decide_False. }
  split_and!; try done.
  { intros mig Hin Hn. rewrite Hkeep by done.
    apply (elem_of_pending_of m). rewrite Hsplit. apply elem_of_app. by right. }
  intros w m2 Hm2 retried.
  assert (pending_of (with_world w m1) = retried) as Hretry.
  { rewrite pending_of_with_world.
    by apply (pending_after_record (NextBatch (db m)) m m1 done (failed :: rest)). }
  assert (calls (schema m2) = calls (schema m1) ++ ups_ok retried
          ∧ History (db m2) = record_all (NextBatch (db m)) retried (History (db m1)))
    as [Hcalls2 Hhist2].
  { apply Migrate_ok in Hm2 as [[Hp ->]|(_ & _ & Hh & _ & Hc)]; rewrite Hretry in *.
    - rewrite Hp. simpl. by rewrite app_nil_r.
    - split; [done|]. simpl in Hh. by rewrite Hh, Hnext. }
  split_and!; try done.
  - intros Hnd. apply filter_fresh_names. rewrite <- Hsplit. by apply NoDup_names_pending.
  - intros mig Hin. rewrite Hhist2, lookup_record_all.
    destruct (decide (Name mig ∈ Name <$> retried)) as [|Hnot]; [done|].
    destruct (decide (Name mig ∈ Name <$> done)) as [Hd|Hd].
    + rewrite Hhist, lookup_record_all. by rewrite decide_True.
    + destruct Hnot. apply list_elem_of_fmap_2. apply list_elem_of_filter.
      split; [done|]. apply elem_of_app in Hin as [Hin|Hin]; [|done].
      destruct Hd. by apply list_elem_of_fmap_2.
  - intros n Hn. rewrite Hhist2, lookup_record_all.
    rewrite fmap_app in Hn. apply not_elem_of_app in Hn as [Hn1 Hn2].
    rewrite decide_False; [by apply Hkeep|].
    intros (mig & -> & [_ Hin]%list_elem_of_filter)%list_elem_of_fmap.
    apply Hn2. by apply list_elem_of_fmap_2.
Qed.

(** *** Status *)

Lemma status_rows_fst hist (migs : list (Migration World)) (k : nat) :
  (status_rows hist migs k).1 = status_row hist <$> migs.
Proof.
  revert k. induction migs as [|mig migs IH]; intros k; simpl; [done|].
  specialize (IH (match hist !! Name mig with Some _ => k | None => S k end)).
  destruct (status_rows hist migs _) as [rows n]. simpl in *. by rewrite IH.
Qed.

Lemma NewMigrator_sorted (migs : list (Migration World)) sch :
  Sorted name_le (Name <$> migrations (NewMigrator migs sch)).
Proof.
  simpl. eapply Sorted_fmap; [|apply sort_Slice_sorted].
  - intros a b Hab. unfold not_after in Hab. by apply string_ltb_false_leb.
  - intros a b. apply string_ltb_asym.
Qed.

Lemma NewMigrator_perm (migs : list (Migration World)) sch :
  migrations (NewMigrator migs sch) ≡ₚ migs.
Proof. apply sort_Slice_perm. Qed.

(** C7 (status).  In every state of a run of a migrator built by
    [NewMigrator], [Status] returns the migrator unchanged and prints,
    between the heading and the closing lines, one row per registered
    migration: the rows are the registered migrations in their stored
    order, which is ascending in the name and holds each migration handed
    to [NewMigrator] exactly once; the row of a migration is "Ran" with
    batch [K] when the history maps its name to [K], and "Pending" when the
    history has no entry for it. *)
Theorem C7_status_reports_every_migration (migs : list (Migration World)) sch0 tr m :
  run (NewMigrator migs sch0) tr m →
  (Status m).1 = m
  ∧ (∃ footer,
       (Status m).2 = [Title; Header; Rule]
                      ++ (status_row (History (db m)) <$> migrations m)
                      ++ footer ++ [Rule]
       ∧ ∀ l, l ∈ footer → l = FullyUpToDate ∨ l = NothingRanYet)
  ∧ (∀ mig (k : Z), History (db m) !! Name mig = Some k →
       status_row (History (db m)) mig = Ran (Name mig) k)
  ∧ (∀ mig, History (db m) !! Name mig = None →
       status_row (History (db m)) mig = Pending (Name mig))
  ∧ migrations m ≡ₚ migs
  ∧ Sorted name_le (Name <$> migrations m).
Proof.
  intros Hrun. apply run_migrations in Hrun.
  split_and!.
  - apply Status_id.
  - unfold Status.
    pose proof (status_rows_fst (History (db m)) (migrations m) 0) as Hrows.
    destruct (status_rows _ _ _) as [rows n]. simpl in *. subst rows.
    eexists. split; [done|].
    intros l. repeat case_match; set_solver.
  - intros mig k Hk. unfold status_row. by rewrite Hk.
  - intros mig Hk. unfold status_row. by rewrite Hk.
  - rewrite Hrun. apply NewMigrator_perm.
  - rewrite Hrun. apply NewMigrator_sorted.
Qed.

End claims_partial.

Section claims_rollback.
Context {World : Type}.
Implicit Types (m : Migrator World) (mig : Migration World) (s : SimulatedDB).
Implicit Types (hist : gmap string Z) (sch : Schema World) (w : World).
Implicit Types (done rest pending : list (Migration World)).

Lemma Rollback_degenerate m :
  (∀ mig, mig ∈ migrations m → History (db m) !! Name mig ≠ Some (GetLastBatch (db m))) →
  Rollback m = (m, None).
Proof.
  intros Horphan. unfold Rollback.
  destruct (GetLastBatch (db m) =? 0)%Z; [done|].
  rewrite migrationsToRevert_of_filter.
  rewrite filter_nil_Forall; [done|]. intros mig Hin. by apply Horphan.
Qed.

(** Entries below a batch number that an unregistered name holds, or below
    0, survive every run. *)
Lemma pinned_entries_survive (m0 : Migrator World) tr m (t : Z) :
  run m0 tr m →
  (t = 0%Z ∨ ∃ o : string, History (db m0) !! o = Some t
                           ∧ ∀ mig, mig ∈ migrations m0 → Name mig ≠ o) →
  (t = 0%Z ∨ ∃ o : string, History (db m) !! o = Some t
                           ∧ ∀ mig, mig ∈ migrations m0 → Name mig ≠ o)
  ∧ ∀ (n : string) (b : Z), History (db m0) !! n = Some b → (b < t)%Z →
      History (db m) !! n = Some b.
Proof.
  intros Hrun Hpin.
  induction Hrun as [|tr m Hrun [IHpin IH]|tr m Hrun [IHpin IH]|tr m _ IH|tr m w _ IH];
    try done.
  - pose proof (run_migrations _ _ _ Hrun) as Hmigs.
    destruct (Migrate_shape m) as (done & rest & Hsplit & _ & Hhist & _).
    rewrite Hhist. split.
    + destruct IHpin as [->|(o & Ho & Hfresh)]; [by left|]. right. exists o.
      split; [|done]. rewrite lookup_record_all. rewrite decide_False; [done|].
      intros (_ & mig & Hin & Hname)%(recorded_were_pending m done rest); [|done].
      rewrite Hmigs in Hin. by apply (Hfresh mig).
    + intros n b Hn Hb. rewrite lookup_record_all. rewrite decide_False; [by apply IH|].
      intros (Hnone & _)%(recorded_were_pending m done rest); [|done].
      rewrite (IH n b) in Hnone; done.
  - pose proof (run_migrations _ _ _ Hrun) as Hmigs.
    destruct (Rollback_shape m) as (done & rest & Hsplit & _ & Hhist & _).
    rewrite Hhist. split.
    + destruct IHpin as [->|(o & Ho & Hfresh)]; [by left|]. right. exists o.
      split; [|done]. rewrite lookup_erase_all. rewrite decide_False; [done|].
      intros (_ & mig & Hin & Hname)%(erased_were_in_last_batch m done rest); [|done].
      rewrite Hmigs in Hin. by apply (Hfresh mig).
    + intros n b Hn Hb. rewrite lookup_erase_all. rewrite decide_False; [by apply IH|].
      intros (Hlast & _)%(erased_were_in_last_batch m done rest); [|done].
      rewrite (IH n b) in Hlast by done. injection Hlast as Hlast.
      assert (t ≤ GetLastBatch (db m))%Z; [|lia].
      destruct IHpin as [->|(o & Ho & _)]; [apply GetLastBatch_nonneg|].
      by apply (GetLastBatch_ub _ o).
  - by rewrite Status_id.
Qed.

(** C9 (orphaned highest batch).  When no registered migration is recorded
    under the highest batch of the history, [Rollback] returns [nil] and
    the migrator as it was: no entry erased, [NextBatch] not reset, no
    executor call.  Hence any number of [Rollback] calls in a row leaves
    the state where it is, and in every run from that state, whatever
    mixes [Migrate] and [Rollback], each entry recorded under a lower batch
    stays in the history. *)
Theorem C9_orphan_batch_blocks_rollback m :
  (∀ mig, mig ∈ migrations m → History (db m) !! Name mig ≠ Some (GetLastBatch (db m))) →
  Rollback m = (m, None)
  ∧ (∀ k : nat, Nat.iter k (λ x, (Rollback x).1) m = m)
  ∧ (∀ tr m', run m tr m' →
       ∀ (n : string) (b : Z), History (db m) !! n = Some b →
         (b < GetLastBatch (db m))%Z → History (db m') !! n = Some b).
Proof.
  intros Horphan. pose proof (Rollback_degenerate m Horphan) as Hroll.
  split_and!; [done| |].
  - induction k as [|k IH]; simpl; [done|]. by rewrite IH, Hroll.
  - intros tr m' Hrun.
    apply (pinned_entries_survive m tr m' (GetLastBatch (db m)) Hrun).
    destruct (decide (GetLastBatch (db m) = 0%Z)) as [|Hne]; [by left|]. right.
    destruct (GetLastBatch_witness _ Hne) as [o Ho]. exists o. split; [done|].
    intros mig Hin <-. by apply (Horphan mig).
Qed.

(** *** The round trip *)

(** What a [Migrate] that applied something leaves behind, when every
    batch number recorded before was below [NextBatch]. *)
Lemma Migrate_fresh_batch m m1 :
  (1 ≤ NextBatch (db m))%Z →
  (∀ (n : string) (b : Z), History (db m) !! n = Some b → (b < NextBatch (db m))%Z) →
  pending_of m ≠ [] →
  Migrate m = (m1, None) →
  GetLastBatch (db m1) = NextBatch (db m)
  ∧ migrationsToRevert_of m1 = reverse (pending_of m)
  ∧ History (db m1) = record_all (NextBatch (db m)) (pending_of m) (History (db m))
  ∧ calls (schema m1) = calls (schema m) ++ ups_ok (pending_of m).
Proof.
  intros Hpos Hbelow Hpending [[? _]|(_ & Hmigs & Hhist & _ & Hcalls)]%Migrate_ok; [done|].
  assert (GetLastBatch (db m1) = NextBatch (db m)) as Hlast.
  { apply GetLastBatch_eq; [| |lia].
    - intros n b. rewrite Hhist, lookup_record_all.
      case_decide; [intros [= ?]; lia|]. intros ?%Hbelow. lia.
    - destruct (pending_of m) as [|mig ?] eqn:Hp; [done|]. exists (Name mig).
      rewrite Hhist, lookup_record_all. rewrite decide_True; [done|]. by left. }
  split_and!; try done.
  rewrite migrationsToRevert_of_filter, Hlast, Hmigs, Hhist. f_equal.
  symmetry. etrans; [apply pending_of_filter|].
  apply filter_ext_in. intros mig Hin.
  rewrite lookup_record_all. case_decide as Hname.
  - apply (recorded_were_pending m _ []) in Hname as [Hnone _];
      [|by rewrite app_nil_r].
    naive_solver.
  - split.
    + intros Hnone. destruct Hname. apply list_elem_of_fmap_2.
      by apply elem_of_pending_of.
    + intros ?%Hbelow. lia.
Qed.

Lemma erase_record_all (batch : Z) pending hist :
  (∀ mig, mig ∈ pending → hist !! Name mig = None) →
  erase_all (reverse pending) (record_all batch pending hist) = hist.
Proof.
  intros Hnone. apply map_eq. intros n.
  rewrite lookup_erase_all, lookup_record_all, fmap_reverse.
  case_decide as Hin.
  - apply elem_of_reverse, list_elem_of_fmap in Hin as (mig & -> & Hin).
    symmetry. by apply Hnone.
  - rewrite decide_False; [done|]. by rewrite elem_of_reverse in Hin.
Qed.

(** C1, as the code has it (batch round trip).  From a state in which
    [NextBatch] is at least 1, every batch number of the history is below
    [NextBatch], and some registered migration is pending: a [Migrate] that
    returns [nil] followed by a [Rollback] that returns [nil] leaves the
    history and [NextBatch] as they were before the [Migrate]. *)
Theorem C1_round_trip_from_clean_state m m1 m2 :
  (1 ≤ NextBatch (db m))%Z →
  (∀ (n : string) (b : Z), History (db m) !! n = Some b → (b < NextBatch (db m))%Z) →
  pending_of m ≠ [] →
  Migrate m = (m1, None) →
  Rollback m1 = (m2, None) →
  History (db m2) = History (db m) ∧ NextBatch (db m2) = NextBatch (db m).
Proof.
  intros Hpos Hbelow Hpending Hm1 Hm2.
  destruct (Migrate_fresh_batch m m1 Hpos Hbelow Hpending Hm1)
    as (Hlast & Hrevert & Hhist & _).
  apply Rollback_ok in Hm2 as [[[H0|Hnil] _]|(_ & _ & _ & Hhist2 & Hnext2 & _)].
  - lia.
  - rewrite Hrevert in Hnil. by apply (f_equal reverse) in Hnil;
      rewrite reverse_involutive in Hnil.
  - split; [|congruence].
    rewrite Hhist2, Hrevert, Hhist. apply erase_record_all.
    intros mig Hin. by apply elem_of_pending_of in Hin as [? _].
Qed.

End claims_rollback.

(** C1, as stated, fails, in two ways; every executor call succeeds in
    both.
    - When nothing is pending [Migrate] does nothing, and the [Rollback]
      that follows reverts the batch applied before: [ma] is the state
      after a first [Migrate] of one registered migration.
    - When a batch was left incomplete, [Migrate] completes it under the
      same number and [Rollback] then reverts all of it: [mb] is the state
      after a [Migrate] of two registered migrations in which the [Up] of
      the second failed. *)
Lemma C1_counterexample_round_trip :
  (let ma := (Migrate (NewMigrator [scripted "001_a"] (fresh_schema []))).1 in
   let m1 := (Migrate ma).1 in
   let m2 := (Rollback m1).1 in
   Migrate ma = (m1, None) ∧ Rollback m1 = (m2, None)
   ∧ calls (schema m2) = [CallUp "001_a" true; CallDown "001_a" true]
   ∧ History (db ma) !! "001_a" = Some 1%Z ∧ NextBatch (db ma) = 2%Z
   ∧ History (db m2) !! "001_a" = None ∧ NextBatch (db m2) = 1%Z
   ∧ ¬ (History (db m2) = History (db ma) ∧ NextBatch (db m2) = NextBatch (db ma)))
  ∧
  (let mb := (Migrate (NewMigrator [scripted "001_a"; scripted "002_b"]
                         (fresh_schema [true; false]))).1 in
   let m1 := (Migrate mb).1 in
   let m2 := (Rollback m1).1 in
   Migrate mb = (m1, None) ∧ Rollback m1 = (m2, None)
   ∧ calls (schema m2) = [CallUp "001_a" true; CallUp "002_b" false; CallUp "002_b" true;
                          CallDown "002_b" true; CallDown "001_a" true]
   ∧ History (db mb) !! "001_a" = Some 1%Z ∧ NextBatch (db mb) = 1%Z
   ∧ History (db m2) !! "001_a" = None ∧ NextBatch (db m2) = 1%Z
   ∧ ¬ (History (db m2) = History (db mb) ∧ NextBatch (db m2) = NextBatch (db mb))).
Proof.
  split; intros m m1 m2.
  - split_and!; try (vm_compute; reflexivity).
    intros [_ Hnext]. vm_compute in Hnext. discriminate.
  - split_and!; try (vm_compute; reflexivity).
    intros [Hhist _]. apply (f_equal (λ h, h !! "001_a")) in Hhist.
    vm_compute in Hhist. discriminate.
Qed.

Section claims_invariants.
Context {World : Type}.
Implicit Types (m : Migrator World) (mig : Migration World) (s : SimulatedDB).
Implicit Types (hist : gmap string Z) (sch : Schema World) (w : World).
Implicit Types (done rest pending : list (Migration World)) (tr : list event).

(** After a [Rollback] that reverted its whole list, what is left of the
    history lies below the batch rolled back. *)
Lemma Rollback_complete_below m done :
  (∀ (n : string) (b : Z), History (db m) !! n = Some b →
     ∃ mig, mig ∈ migrations m ∧ Name mig = n) →
  migrationsToRevert_of m = done →
  ∀ (n : string) (b : Z), erase_all done (History (db m)) !! n = Some b →
    (b < GetLastBatch (db m))%Z.
Proof.
  intros Hreg Hdone n b. rewrite lookup_erase_all. case_decide as Hn; [done|].
  intros Hb. pose proof (GetLastBatch_ub _ _ _ Hb) as Hle.
  destruct (decide (b = GetLastBatch (db m))) as [->|]; [|lia].
  destruct Hn. destruct (Hreg _ _ Hb) as (mig & Hin & <-).
  apply list_elem_of_fmap_2. rewrite <- Hdone. by apply elem_of_migrationsToRevert_of.
Qed.

Lemma migrate_calls_Migrated r tr :
  migrate_calls (Migrated r :: tr) = S (migrate_calls tr).
Proof. done. Qed.

Lemma ledger_inv_run (m0 : Migrator World) tr m :
  db m0 = NewSimulatedDB →
  run m0 tr m →
  (Z.of_nat (migrate_calls tr) < max_int)%Z →
  ledger_inv m0 tr m.
Proof.
  intros Hnew Hrun.
  induction Hrun as [|tr m Hrun IH|tr m Hrun IH|tr m Hrun IH|tr m w Hrun IH]; intros Hlen.
  - split; rewrite Hnew; simpl; try done; intros; by rewrite lookup_empty in *.
  - rewrite migrate_calls_Migrated in Hlen.
    destruct IH as [Hnext Hbatch Hreg Hstrict]; [lia|].
    pose proof (run_migrations _ _ _ Hrun) as Hmigs.
    destruct (Migrate_shape m) as (done & rest & Hsplit & _ & Hhist & Hcases & Hnil).
    assert (∀ (n : string) (b : Z), History (db (Migrate m).1) !! n = Some b →
              b = NextBatch (db m) ∧ done ≠ [] ∨ History (db m) !! n = Some b) as Hentry.
    { intros n b. rewrite Hhist, lookup_record_all. case_decide as Hn; [|by right].
      intros [= <-]. left. split; [done|]. intros ->. by apply elem_of_nil in Hn. }
    assert (wrap_int (NextBatch (db m) + 1) = NextBatch (db m) + 1)%Z as Hwrap.
    { apply wrap_int_small. unfold max_int in Hlen. lia. }
    split.
    + rewrite migrate_calls_Migrated.
      destruct Hcases as [[-> _]|(_ & _ & _ & ->)]; [lia|]. rewrite Hwrap. lia.
    + intros n b [[-> _]|Hold%Hbatch]%Hentry;
        destruct Hcases as [[-> _]|(_ & _ & _ & ->)]; rewrite ?Hwrap; lia.
    + intros n b. rewrite Hhist, lookup_record_all. case_decide as Hn; [|by apply Hreg].
      intros _. apply (recorded_were_pending m done rest) in Hn as [_ (mig & ? & ?)]; [|done].
      exists mig. by rewrite <- Hmigs.
    + simpl. intros [Hok Hclean]%andb_prop n b Hb.
      assert ((Migrate m).2 = None) as Hres by (by destruct (Migrate m).2).
      specialize (Hnil Hres). specialize (Hstrict Hclean).
      destruct Hcases as [[-> Hdone]|(_ & _ & _ & ->)].
      * apply Hentry in Hb as [[_ Hne]|Hold]; [by destruct Hne; apply Hdone|by eapply Hstrict].
      * rewrite Hwrap. apply Hentry in Hb as [[-> _]|Hold%Hbatch]; lia.
  - change (migrate_calls (RolledBack (Rollback m).2 :: tr)) with (migrate_calls tr) in *.
    destruct IH as [Hnext Hbatch Hreg Hstrict]; [done|].
    pose proof (run_migrations _ _ _ Hrun) as Hmigs.
    destruct (Rollback_shape m) as (done & rest & Hsplit & _ & Hhist & Hcases).
    assert (∀ (n : string) (b : Z), History (db (Rollback m).1) !! n = Some b →
              History (db m) !! n = Some b) as Hentry.
    { intros n b. rewrite Hhist, lookup_erase_all. by case_decide. }
    assert (done ≠ [] ∧ rest = [] → ∀ (n : string) (b : Z),
              History (db (Rollback m).1) !! n = Some b → (b < GetLastBatch (db m))%Z)
      as Hbelow.
    { intros [_ ->] n b. rewrite Hhist. apply Rollback_complete_below.
      - intros k c Hk. destruct (Hreg _ _ Hk) as (mig & ? & ?). exists mig. by rewrite Hmigs.
      - by rewrite Hsplit, app_nil_r. }
    assert (GetLastBatch (db m) ≠ 0%Z → (1 ≤ GetLastBatch (db m) ≤ NextBatch (db m))%Z)
      as Hlast.
    { intros Hne. destruct (GetLastBatch_witness _ Hne) as [n Hn%Hbatch]. lia. }
    split.
    + change (migrate_calls (RolledBack (Rollback m).2 :: tr)) with (migrate_calls tr).
      destruct Hcases as [[-> _]|(_ & _ & _ & Hne%Hlast & ->)]; lia.
    + intros n b Hb. destruct Hcases as [[-> _]|(Hd & Hr & _ & Hne & ->)].
      * by apply (Hbatch n), Hentry.
      * pose proof (Hbelow (conj Hd Hr) n b Hb). apply Hentry, Hbatch in Hb. lia.
    + intros n b Hb%Hentry. by eapply Hreg.
    + simpl. intros Hclean n b Hb. destruct Hcases as [[-> _]|(Hd & Hr & _ & Hne & ->)].
      * by apply (Hstrict Hclean n), Hentry.
      * by apply (Hbelow (conj Hd Hr) n b).
  - change (migrate_calls (Reported :: tr)) with (migrate_calls tr) in *.
    rewrite Status_id. destruct IH as [Hnext Hbatch Hreg Hstrict]; [done|]. by split.
  - change (migrate_calls (WorldChanged :: tr)) with (migrate_calls tr) in *.
    destruct IH as [Hnext Hbatch Hreg Hstrict]; [done|]. by split.
Qed.

(** C10 (range of batch numbers).  In every state of a run of a migrator
    built by [NewMigrator], the run having made fewer than [2^63 - 1]
    calls of [Migrate] (so that the 64-bit counter cannot have wrapped),
    whatever the executor calls returned: [NextBatch] is at least 1 and
    every batch number of the history lies between 1 and [NextBatch]. *)
Theorem C10_batch_numbers_in_range (migs : list (Migration World)) sch0 tr m :
  run (NewMigrator migs sch0) tr m →
  (Z.of_nat (migrate_calls tr) < max_int)%Z →
  (1 ≤ NextBatch (db m))%Z
  ∧ ∀ (n : string) (b : Z), History (db m) !! n = Some b → (1 ≤ b ≤ NextBatch (db m))%Z.
Proof.
  intros Hrun Hlen.
  destruct (ledger_inv_run (NewMigrator migs sch0) tr m eq_refl Hrun Hlen) as [Hnext Hbatch _ _].
  split; [lia|done].
Qed.

Lemma GetLastBatch_lt s (t : Z) :
  (0 < t)%Z → (∀ (n : string) (b : Z), History s !! n = Some b → (b < t)%Z) →
  (GetLastBatch s < t)%Z.
Proof.
  intros Ht Hbelow. destruct (decide (GetLastBatch s = 0%Z)) as [->|Hne]; [done|].
  destruct (GetLastBatch_witness _ Hne) as [n Hn]. by apply (Hbelow n).
Qed.

Lemma GetLastBatch_ext s s' : History s = History s' → GetLastBatch s = GetLastBatch s'.
Proof. unfold GetLastBatch. by intros ->. Qed.

(** With pairwise distinct names: while something is recorded under
    [NextBatch] itself some registered migration is pending, and every
    batch number is below [NextBatch] unless the run ends in a failed
    [Migrate]. *)
Lemma strict_unless_failed_migrate (migs : list (Migration World)) sch0 tr m :
  NoDup (Name <$> migs) →
  run (NewMigrator migs sch0) tr m →
  (Z.of_nat (migrate_calls tr) < max_int)%Z →
  (ends_in_failed_migrate tr = false →
     ∀ (n : string) (b : Z), History (db m) !! n = Some b → (b < NextBatch (db m))%Z)
  ∧ (∀ n : string, History (db m) !! n = Some (NextBatch (db m)) → pending_of m ≠ []).
Proof.
  intros Hnd Hrun.
  induction Hrun as [|tr m Hrun IH|tr m Hrun IH|tr m Hrun IH|tr m w Hrun IH]; intros Hlen.
  - simpl. split; intros; by rewrite lookup_empty in *.
  - rewrite migrate_calls_Migrated in Hlen.
    assert (Z.of_nat (migrate_calls tr) < max_int)%Z as Hlen' by lia.
    destruct (IH Hlen') as [IHs IHq].
    destruct (ledger_inv_run (NewMigrator migs sch0) tr m eq_refl Hrun Hlen')
      as [Hnext Hbatch _ _].
    pose proof (run_migrations _ _ _ Hrun) as Hmigs0.
    destruct (Migrate m) as [m' [e|]] eqn:Hm; simpl.
    + split; [done|]. intros _ _.
      apply Migrate_err in Hm
        as (done & failed & rest & cause & w0 & Hsplit & Hmigs & Hhist & _).
      rewrite (pending_after_record (NextBatch (db m)) m m' done (failed :: rest)) by done.
      rewrite filter_fresh_names; [done|]. rewrite <- Hsplit. apply NoDup_names_pending.
      by rewrite Hmigs0, (NewMigrator_perm migs sch0).
    + apply Migrate_ok in Hm as [[Hp ->]|(Hne & Hmigs & Hhist & Hnext' & _)].
      * split; [|done]. intros _ n b Hb.
        destruct (decide (b = NextBatch (db m))) as [->|]; [by destruct (IHq n Hb)|].
        apply Hbatch in Hb. lia.
      * assert (wrap_int (NextBatch (db m) + 1) = NextBatch (db m) + 1)%Z as Hwrap.
        { apply wrap_int_small. unfold max_int in Hlen. lia. }
        assert (∀ (n : string) (b : Z), History (db m') !! n = Some b →
                  (b < NextBatch (db m'))%Z) as Hstrict.
        { intros n b. rewrite Hhist, Hnext', Hwrap, lookup_record_all.
          case_decide; [intros [= <-]; lia|]. intros ?%Hbatch. lia. }
        split; [done|]. intros n Hn%Hstrict. lia.
  - change (migrate_calls (RolledBack (Rollback m).2 :: tr)) with (migrate_calls tr) in Hlen.
    destruct (IH Hlen) as [IHs IHq].
    destruct (ledger_inv_run (NewMigrator migs sch0) tr m eq_refl Hrun Hlen)
      as [Hnext Hbatch Hreg _].
    pose proof (run_migrations _ _ _ Hrun) as Hmigs0.
    assert (∀ (n : string) (b : Z), History (db m) !! n = Some b →
              ∃ mig, mig ∈ migrations m ∧ Name mig = n) as Hreg'.
    { intros n b Hb. destruct (Hreg _ _ Hb) as (mig & ? & ?). exists mig. by rewrite Hmigs0. }
    destruct (Rollback m) as [m' [e|]] eqn:Hm; simpl.
    + apply Rollback_err in Hm
        as (done & failed & rest & cause & w0 & Hsplit & _ & Hmigs & Hhist & Hnext' & _).
      assert (∀ (n : string) (b : Z), History (db m') !! n = Some b →
                History (db m) !! n = Some b) as Hsub.
      { intros n b. rewrite Hhist, lookup_erase_all. by case_decide. }
      split.
      * intros Hclean n b Hb%Hsub. rewrite Hnext'. by apply (IHs Hclean n).
      * intros n Hn. rewrite Hnext' in Hn. apply Hsub, IHq in Hn.
        destruct (pending_of m) as [|mig ?] eqn:Hp; [done|]. clear Hn.
        assert (mig ∈ pending_of m') as Hin; [|by intros Hnil; rewrite Hnil in Hin;
                                                 apply elem_of_nil in Hin].
        assert (mig ∈ pending_of m) as [Hnone Hreg1]%elem_of_pending_of
          by (rewrite Hp; by left).
        apply elem_of_pending_of. rewrite Hmigs. split; [|done].
        rewrite Hhist, lookup_erase_all. by case_decide.
    + apply Rollback_ok in Hm as [[Hnone ->]|(Hlast & Hne & Hmigs & Hhist & Hnext' & _)].
      * split; [|done]. intros _ n b Hb.
        assert (GetLastBatch (db m) = 0%Z) as H0.
        { destruct Hnone as [?|Hnil]; [done|].
          destruct (decide (GetLastBatch (db m) = 0%Z)) as [|Hne]; [done|].
          destruct (GetLastBatch_witness _ Hne) as [k Hk].
          destruct (Hreg' _ _ Hk) as (mig & Hin & <-).
          assert (mig ∈ migrationsToRevert_of m) as Hrev
            by (by apply elem_of_migrationsToRevert_of).
          rewrite Hnil in Hrev. by apply elem_of_nil in Hrev. }
        pose proof (GetLastBatch_ub _ _ _ Hb). apply Hbatch in Hb. lia.
      * assert (∀ (n : string) (b : Z), History (db m') !! n = Some b →
                  (b < NextBatch (db m'))%Z) as Hstrict.
        { intros n b. rewrite Hhist, Hnext'. by apply Rollback_complete_below. }
        split; [done|]. intros n Hn%Hstrict. lia.
  - rewrite Status_id. by apply IH.
  - destruct (IH Hlen) as [IHs IHq]. by split.
Qed.

(** C2, as the code has it.  In every state of a run of a migrator built
    by [NewMigrator], the run having made fewer than [2^63 - 1] calls of
    [Migrate]:
    - [NextBatch] is never below the highest batch number of the history;
    - it is strictly above it as long as no [Migrate] of the run has
      failed;
    - a [Rollback] that returns [nil] on a non-empty history sets
      [NextBatch] to exactly the batch it rolled back, which is strictly
      above everything left in the history;
    - a [Migrate] that returns [nil] and had something pending leaves
      [NextBatch] strictly above the highest batch, also after earlier
      failures;
    - a [Migrate] that returns an error leaves [NextBatch] strictly above
      the highest batch exactly when it was so before and the call
      recorded nothing: what it recorded stays under the counter it did
      not advance;
    - a [Rollback] that returns an error keeps [NextBatch] strictly above
      the highest batch if it was so before;
    - hence, for pairwise distinct names, [NextBatch] is strictly above
      the highest batch unless the latest [Migrate], or [Rollback]
      returning [nil], of the run is a [Migrate] that failed. *)
Theorem C2_next_batch_bounds_history (migs : list (Migration World)) sch0 tr m :
  run (NewMigrator migs sch0) tr m →
  (Z.of_nat (migrate_calls tr) < max_int)%Z →
  (GetLastBatch (db m) ≤ NextBatch (db m))%Z
  ∧ (no_failed_migrate tr = true → (GetLastBatch (db m) < NextBatch (db m))%Z)
  ∧ (∀ m', Rollback m = (m', None) → GetLastBatch (db m) ≠ 0%Z →
       NextBatch (db m') = GetLastBatch (db m)
       ∧ (GetLastBatch (db m') < NextBatch (db m'))%Z)
  ∧ (∀ m', Migrate m = (m', None) → pending_of m ≠ [] →
       (Z.of_nat (migrate_calls tr) + 1 < max_int)%Z →
       (GetLastBatch (db m') < NextBatch (db m'))%Z)
  ∧ (∀ m' (e : error), Migrate m = (m', Some e) →
       (GetLastBatch (db m') < NextBatch (db m'))%Z
       ↔ (GetLastBatch (db m) < NextBatch (db m))%Z ∧ History (db m') = History (db m))
  ∧ (∀ m' (e : error), Rollback m = (m', Some e) →
       (GetLastBatch (db m) < NextBatch (db m))%Z →
       (GetLastBatch (db m') < NextBatch (db m'))%Z)
  ∧ (NoDup (Name <$> migs) → ends_in_failed_migrate tr = false →
       (GetLastBatch (db m) < NextBatch (db m))%Z).
Proof.
  intros Hrun Hlen.
  destruct (ledger_inv_run (NewMigrator migs sch0) tr m eq_refl Hrun Hlen)
    as [Hnext Hbatch Hreg Hstrict].
  pose proof (run_migrations _ _ _ Hrun) as Hmigs.
  split_and!.
  - destruct (decide (GetLastBatch (db m) = 0%Z)) as [->|Hne]; [lia|].
    destruct (GetLastBatch_witness _ Hne) as [n Hn%Hbatch]. lia.
  - intros Hclean. apply GetLastBatch_lt; [lia|]. by apply Hstrict.
  - intros m' Hroll Hne.
    assert (0 < GetLastBatch (db m))%Z as Hpos.
    { pose proof (GetLastBatch_nonneg (db m)). lia. }
    apply Rollback_ok in Hroll as [[[?|Hnil] _]|(_ & _ & _ & Hhist & Hnext' & _)]; [done| |].
    + destruct (GetLastBatch_witness _ Hne) as [n Hn].
      destruct (Hreg _ _ Hn) as (mig & Hin & <-). rewrite <- Hmigs in Hin.
      assert (mig ∈ migrationsToRevert_of m) as Hrev
        by (by apply elem_of_migrationsToRevert_of).
      rewrite Hnil in Hrev. by apply elem_of_nil in Hrev.
    + split; [done|]. rewrite Hnext'. apply GetLastBatch_lt; [done|].
      rewrite Hhist. apply Rollback_complete_below; [|done].
      intros k c Hk. destruct (Hreg _ _ Hk) as (mig & ? & ?). exists mig. by rewrite Hmigs.
  - intros m' Hmig Hpend Hlen1.
    apply Migrate_ok in Hmig as [[? _]|(_ & _ & Hhist & Hnext' & _)]; [done|].
    rewrite Hnext', wrap_int_small by (unfold max_int in Hlen1; lia).
    apply GetLastBatch_lt; [lia|]. intros n b. rewrite Hhist, lookup_record_all.
    case_decide; [intros [= <-]; lia|]. intros ?%Hbatch. lia.
  - intros m' e (done & failed & rest & cause & w0 & Hsplit & _ & Hhist & Hnext' & _)
      %Migrate_err.
    rewrite Hnext'. split.
    + intros Hlt.
      assert (done = []) as ->.
      { destruct done as [|mig done]; [done|].
        assert (History (db m') !! Name mig = Some (NextBatch (db m))) as Hk.
        { rewrite Hhist, lookup_record_all. rewrite decide_True; [done|].
          rewrite fmap_cons. by left. }
        apply GetLastBatch_ub in Hk. lia. }
      split; [|done]. by rewrite <- (GetLastBatch_ext (db m') (db m)).
    + intros [Hlt Heq]. by rewrite (GetLastBatch_ext (db m') (db m)).
  - intros m' e (done & failed & rest & cause & w0 & _ & _ & _ & Hhist & Hnext' & _)
      %Rollback_err Hlt.
    rewrite Hnext'. apply GetLastBatch_lt; [lia|].
    intros n b. rewrite Hhist, lookup_erase_all. case_decide; [done|].
    intros Hb%GetLastBatch_ub. lia.
  - intros Hnd Hend.
    destruct (strict_unless_failed_migrate migs sch0 tr m Hnd Hrun Hlen) as [Hs _].
    apply GetLastBatch_lt; [lia|]. by apply Hs.
Qed.

End claims_invariants.

(** C2, as stated, fails: after a [Migrate] that failed part-way the
    partial batch is recorded under the counter that was not advanced, so
    [NextBatch] equals the highest batch of the history, and no [Rollback]
    has taken place.  Two registered migrations; the [Up] of the second one
    fails. *)
Lemma C2_counterexample_partial_batch :
  let m0 := NewMigrator [scripted "001_a"; scripted "002_b"] (fresh_schema [true; false]) in
  let m := (Migrate m0).1 in
  run m0 [Migrated (Migrate m0).2] m
  ∧ calls (schema m) = [CallUp "001_a" true; CallUp "002_b" false]
  ∧ History (db m) !! "001_a" = Some 1%Z
  ∧ GetLastBatch (db m) = 1%Z ∧ NextBatch (db m) = 1%Z
  ∧ ¬ ((GetLastBatch (db m) < NextBatch (db m))%Z
       ∨ ∃ r tr, [Migrated (Migrate m0).2] = RolledBack r :: tr).
Proof.
  intros m0 m. split; [apply run_Migrate, run_start|].
  split_and!; try (vm_compute; reflexivity).
  intros [Hlt|(r & tr & [=])]. vm_compute in Hlt. discriminate.
Qed.

(** ** The order of application *)

Section order_facts.

Lemma name_lt_trans (a b c : string) : name_lt a b → name_lt b c → name_lt a c.
Proof.
  unfold name_lt, String.ltb. intros Hab Hbc.
  assert (OrderedTypeEx.String_as_OT.lt a c) as Hac.
  { apply (OrderedTypeEx.String_as_OT.lt_trans a b c);
      apply OrderedTypeEx.String_as_OT.cmp_lt; unfold OrderedTypeEx.String_as_OT.cmp.
    - by destruct (String.compare a b).
    - by destruct (String.compare b c). }
  apply OrderedTypeEx.String_as_OT.cmp_lt in Hac.
  unfold OrderedTypeEx.String_as_OT.cmp in Hac. by rewrite Hac.
Qed.

Lemma name_lt_asym (a b : string) : name_lt a b → name_lt b a → False.
Proof. unfold name_lt. intros Hab Hba. apply string_ltb_asym in Hab. congruence. Qed.

Lemma name_le_lt (a b : string) : name_le a b → a ≠ b → name_lt a b.
Proof. intros. by apply string_ltb_leb_ne. Qed.

Lemma name_lt_le (a b : string) : name_lt a b → name_le a b.
Proof. intros H. by apply string_ltb_leb_ne in H as [? _]. Qed.

Lemma name_le_trans (a b c : string) : name_le a b → name_le b c → name_le a c.
Proof.
  intros Hab Hbc.
  destruct (decide (a = b)) as [->|Hne1]; [done|].
  destruct (decide (b = c)) as [<-|Hne2]; [done|].
  apply name_lt_le, (name_lt_trans a b c); by apply name_le_lt.
Qed.

Section strongly_sorted.
Context {A : Type}.

Lemma StronglySorted_impl_in (R R' : relation A) (l : list A) :
  StronglySorted R l →
  (∀ x y, x ∈ l → y ∈ l → R x y → R' x y) →
  StronglySorted R' l.
Proof.
  induction 1 as [|x l Hl IH Hx]; intros Himpl; constructor.
  - apply IH. intros y z Hy Hz. apply Himpl; by right.
  - rewrite Forall_forall in *. intros y Hy.
    apply Himpl; [by left|by right|by apply Hx].
Qed.

Lemma StronglySorted_filter (R : relation A) (P : A → Prop)
    `{!∀ x, Decision (P x)} (l : list A) :
  StronglySorted R l → StronglySorted R (filter P l).
Proof.
  induction 1 as [|x l Hl IH Hx]; [constructor|].
  rewrite filter_cons. case_decide; [|done]. constructor; [done|].
  rewrite Forall_forall in *. intros y [_ Hy]%list_elem_of_filter. by apply Hx.
Qed.

Lemma StronglySorted_reverse_flip (R : relation A) (l : list A) :
  StronglySorted R l → StronglySorted (flip R) (reverse l).
Proof.
  induction 1 as [|x l Hl IH Hx]; [constructor|].
  rewrite reverse_cons. apply StronglySorted_app_2; [|done|repeat constructor].
  intros y z Hy ->%list_elem_of_singleton. rewrite elem_of_reverse in Hy.
  rewrite Forall_forall in Hx. unfold flip. by apply Hx.
Qed.
End strongly_sorted.

(** Strictly ascending names: what sorted, pairwise distinct names are. *)
Lemma sorted_names_strict (l : list string) :
  Sorted name_le l → NoDup l → StronglySorted name_lt l.
Proof.
  intros Hs Hnd.
  assert (StronglySorted name_le l) as Hss.
  { apply Sorted.Sorted_StronglySorted; [|done]. intros a b c. apply name_le_trans. }
  clear Hs. induction Hss as [|x l Hl IH Hx]; [constructor|].
  apply NoDup_cons in Hnd as [Hnin Hnd]. constructor; [by apply IH|].
  rewrite Forall_forall in *. intros y Hy. apply name_le_lt; [by apply Hx|].
  intros ->. done.
Qed.

Lemma fmap_filter_name {World : Type} (P : string → Prop)
    `{!∀ n, Decision (P n), !∀ mig : Migration World, Decision (P (Name mig))}
    (l : list (Migration World)) :
  Name <$> filter (λ mig, P (Name mig)) l = filter P (Name <$> l).
Proof.
  induction l as [|mig l IH]; [done|].
  rewrite fmap_cons, !filter_cons.
  destruct (decide (P (Name mig))), (decide (P (Name mig))); try done.
  by rewrite fmap_cons, IH.
Qed.

(** *** How the two loops move [applied_order] *)

Lemma applied_order_app (log1 log2 : list call) :
  applied_order (log1 ++ log2) = foldl applied_step (applied_order log1) log2.
Proof. apply foldl_app. Qed.

Lemma filter_ne_fresh (acc : list string) (n : string) :
  n ∉ acc → filter (λ k, k ≠ n) acc = acc.
Proof.
  induction acc as [|k acc IH]; [done|]. intros [Hne Hn]%not_elem_of_cons.
  rewrite filter_cons_True by done. by rewrite IH.
Qed.

Lemma applied_ups_ok {World : Type} (done : list (Migration World)) (acc : list string) :
  NoDup (Name <$> done) → (∀ n, n ∈ Name <$> done → n ∉ acc) →
  foldl applied_step acc (ups_ok done) = acc ++ (Name <$> done).
Proof.
  revert acc. induction done as [|mig done IH]; intros acc Hnd Hfresh; simpl.
  { by rewrite app_nil_r. }
  rewrite fmap_cons in Hnd. apply NoDup_cons in Hnd as [Hnin Hnd].
  rewrite filter_ne_fresh by (apply Hfresh; rewrite fmap_cons; by left).
  unfold ups_ok in IH. rewrite IH; [by rewrite <- app_assoc|done|].
  intros n Hn. rewrite not_elem_of_app, list_elem_of_singleton. split.
  - apply Hfresh. rewrite fmap_cons. by right.
  - intros ->. done.
Qed.

Lemma applied_downs_ok {World : Type} (done : list (Migration World)) (acc : list string) :
  foldl applied_step acc (downs_ok done) = filter (λ n, n ∉ Name <$> done) acc.
Proof.
  revert acc. induction done as [|mig done IH]; intros acc; simpl.
  { symmetry. induction acc as [|k acc IHacc]; [done|].
    rewrite filter_cons_True; [by rewrite IHacc|]. apply not_elem_of_nil. }
  unfold downs_ok in IH. rewrite IH, list_filter_filter.
  apply list_filter_iff. intros n. rewrite not_elem_of_cons. naive_solver.
Qed.

Lemma applied_failed_up {World : Type} (rest : list (Migration World)) (acc : list string) :
  foldl applied_step acc (failed_up rest) = acc.
Proof. by destruct rest. Qed.

Lemma applied_failed_down {World : Type} (rest : list (Migration World)) (acc : list string) :
  foldl applied_step acc (failed_down rest) = acc.
Proof. by destruct rest. Qed.

End order_facts.

Section claims_order.
Context {World : Type}.
Implicit Types (m : Migrator World) (mig : Migration World) (s : SimulatedDB).
Implicit Types (hist : gmap string Z) (sch : Schema World) (w : World).
Implicit Types (done rest pending : list (Migration World)) (tr : list event).

(** *** The call log of one step *)

Lemma Migrate_log m :
  ∃ done rest,
    pending_of m = done ++ rest
    ∧ migrations (Migrate m).1 = migrations m
    ∧ History (db (Migrate m).1) = record_all (NextBatch (db m)) done (History (db m))
    ∧ calls (schema (Migrate m).1) = calls (schema m) ++ ups_ok done ++ failed_up rest
    ∧ ((Migrate m).2 = None ↔ rest = [])
    ∧ (NextBatch (db (Migrate m).1) = NextBatch (db m) ∨ rest = []).
Proof.
  destruct (Migrate m) as [m' [e|]] eqn:Hm; simpl.
  - apply Migrate_err in Hm
      as (done & failed & rest & cause & w & Hsplit & Hmigs & Hhist & Hnext & Hcalls & _).
    exists done, (failed :: rest). split_and!; try done. by left.
  - apply Migrate_ok in Hm as [[Hp ->]|(Hne & Hmigs & Hhist & Hnext & Hcalls)].
    + exists [], []. split_and!; try done; [by rewrite app_nil_r|by right].
    + exists (pending_of m), []. rewrite !app_nil_r. split_and!; try done. by right.
Qed.

Lemma Rollback_log m :
  (GetLastBatch (db m) = 0%Z → migrationsToRevert_of m = []) →
  ∃ done rest,
    migrationsToRevert_of m = done ++ rest
    ∧ migrations (Rollback m).1 = migrations m
    ∧ History (db (Rollback m).1) = erase_all done (History (db m))
    ∧ calls (schema (Rollback m).1) = calls (schema m) ++ downs_ok done ++ failed_down rest
    ∧ ((Rollback m).2 = None ↔ rest = [])
    ∧ (NextBatch (db (Rollback m).1) = NextBatch (db m)
       ∨ rest = [] ∧ GetLastBatch (db m) ≠ 0%Z
         ∧ NextBatch (db (Rollback m).1) = GetLastBatch (db m)).
Proof.
  intros Hempty. destruct (Rollback m) as [m' [e|]] eqn:Hm; simpl.
  - apply Rollback_err in Hm
      as (done & failed & rest & cause & w & Hsplit & _ & Hmigs & Hhist & Hnext & Hcalls & _).
    exists done, (failed :: rest). split_and!; try done. by left.
  - apply Rollback_ok in Hm as [[Hnone ->]|(Hlast & Hne & Hmigs & Hhist & Hnext & Hcalls)].
    + assert (migrationsToRevert_of m = []) as Hnil by (destruct Hnone; auto).
      exists [], []. split_and!; try done; [by rewrite app_nil_r|by left].
    + exists (migrationsToRevert_of m), []. rewrite !app_nil_r. split_and!; try done.
      by right.
Qed.

(** *** The names of the pending and of the revert list *)

Lemma names_pending_of m :
  Name <$> pending_of m = filter (λ n, History (db m) !! n = None) (Name <$> migrations m).
Proof.
  rewrite pending_of_filter.
  apply (fmap_filter_name (λ n : string, History (db m) !! n = @None Z)).
Qed.

Lemma names_migrationsToRevert_of m :
  Name <$> migrationsToRevert_of m =
  reverse (filter (λ n, History (db m) !! n = Some (GetLastBatch (db m)))
             (Name <$> migrations m)).
Proof.
  rewrite migrationsToRevert_of_filter, fmap_reverse. f_equal.
  apply (fmap_filter_name (λ n, History (db m) !! n = Some (GetLastBatch (db m)))).
Qed.

Lemma sorted_names_pending m :
  Sorted name_le (Name <$> migrations m) → Sorted name_le (Name <$> pending_of m).
Proof.
  intros Hs. rewrite names_pending_of.
  apply Sorted.StronglySorted_Sorted, StronglySorted_filter.
  apply Sorted.Sorted_StronglySorted; [|done]. intros a b c. apply name_le_trans.
Qed.

(** With sorted, pairwise distinct names: in a split of the pending list
    every earlier name is below every later one, in a split of the revert
    list every earlier name is above every later one. *)
Lemma pending_split_lt m done rest (x y : string) :
  StronglySorted name_lt (Name <$> migrations m) →
  pending_of m = done ++ rest →
  x ∈ Name <$> done → y ∈ Name <$> rest → name_lt x y.
Proof.
  intros Hs Hsplit Hx Hy.
  apply (StronglySorted_filter _ (λ n, History (db m) !! n = None)) in Hs.
  rewrite <- names_pending_of, Hsplit, fmap_app in Hs.
  by apply (StronglySorted_app_1_elem_of _ _ _ _ _ Hs).
Qed.

Lemma revert_split_gt m done rest (x y : string) :
  StronglySorted name_lt (Name <$> migrations m) →
  migrationsToRevert_of m = done ++ rest →
  x ∈ Name <$> done → y ∈ Name <$> rest → name_lt y x.
Proof.
  intros Hs Hsplit Hx Hy.
  apply (StronglySorted_filter _ (λ n, History (db m) !! n = Some (GetLastBatch (db m)))),
    StronglySorted_reverse_flip in Hs.
  rewrite <- names_migrationsToRevert_of, Hsplit, fmap_app in Hs.
  by apply (StronglySorted_app_1_elem_of _ _ _ _ _ Hs).
Qed.

Lemma order_inv_record m m' done rest :
  NoDup (Name <$> migrations m) →
  StronglySorted name_lt (Name <$> migrations m) →
  (∀ (n : string) (b : Z), History (db m) !! n = Some b → (b ≤ NextBatch (db m))%Z) →
  order_inv m →
  pending_of m = done ++ rest →
  migrations m' = migrations m →
  History (db m') = record_all (NextBatch (db m)) done (History (db m)) →
  applied_order (calls (schema m')) = applied_order (calls (schema m)) ++ (Name <$> done) →
  NextBatch (db m') = NextBatch (db m) ∨ rest = [] →
  order_inv m'.
Proof.
  intros Hnd Hss Hle [Hond Hdom Hsorted Hnext] Hsplit Hmigs Hhist Horder Hcases.
  assert (∀ n : string, n ∈ Name <$> done → History (db m) !! n = None) as Hfresh.
  { intros n Hn. by apply (recorded_were_pending m done rest) in Hn as [? _]. }
  assert (∀ n : string, n ∈ applied_order (calls (schema m)) → n ∉ Name <$> done) as Hold.
  { intros n [b Hb]%Hdom Hn%Hfresh. congruence. }
  assert (∀ n : string, n ∈ applied_order (calls (schema m)) →
            History (db m') !! n = History (db m) !! n) as Hsame.
  { intros n Hn%Hold. rewrite Hhist, lookup_record_all. by rewrite decide_False. }
  assert (∀ n : string, n ∈ Name <$> done →
            History (db m') !! n = Some (NextBatch (db m))) as Hnew.
  { intros n Hn. rewrite Hhist, lookup_record_all. by rewrite decide_True. }
  assert (NoDup (Name <$> done)) as Hnd_done.
  { apply NoDup_names_pending in Hnd. rewrite Hsplit, fmap_app in Hnd.
    by apply NoDup_app in Hnd as [? _]. }
  split; rewrite ?Horder.
  - apply NoDup_app. split_and!; [done| |done]. apply Hold.
  - intros n. rewrite elem_of_app, Hdom, Hhist, lookup_record_all.
    case_decide as Hn; [by split; [eauto|right]|]. naive_solver.
  - apply StronglySorted_app_2.
    + intros x y Hx Hy. pose proof Hx as [bx Hbx]%Hdom.
      exists bx, (NextBatch (db m)). rewrite Hsame, Hnew by done. split_and!; try done.
      pose proof (Hle _ _ Hbx) as Hbound.
      destruct (decide (bx = NextBatch (db m))) as [->|]; [right|left; lia].
      split; [done|]. apply list_elem_of_fmap in Hy as (mig & -> & Hin).
      apply Hnext; [done|]. rewrite Hsplit. apply elem_of_app. by left.
    + eapply StronglySorted_impl_in; [exact Hsorted|].
      intros x y Hx Hy. unfold batch_name_lt. by rewrite !Hsame.
    + apply (StronglySorted_impl_in name_lt).
      * apply (StronglySorted_filter _ (λ n, History (db m) !! n = None)) in Hss.
        rewrite <- names_pending_of, Hsplit, fmap_app in Hss.
        by apply StronglySorted_app_1_l in Hss.
      * intros x y Hx Hy Hlt. exists (NextBatch (db m)), (NextBatch (db m)).
        rewrite !Hnew by done. split_and!; try done. by right.
  - intros x mig Hx Hmig.
    rewrite (pending_after_record (NextBatch (db m)) m m' done rest) in Hmig by done.
    apply list_elem_of_filter in Hmig as [Hnot Hrest].
    destruct Hcases as [Heq| ->]; [|by apply elem_of_nil in Hrest].
    rewrite Heq, Hhist, lookup_record_all in Hx. case_decide as Hdone.
    + apply (pending_split_lt m done rest); [done..|]. by apply list_elem_of_fmap_2.
    + apply Hnext; [done|]. rewrite Hsplit. apply elem_of_app. by right.
Qed.

Lemma order_inv_erase m m' done rest :
  StronglySorted name_lt (Name <$> migrations m) →
  (∀ (n : string) (b : Z), History (db m) !! n = Some b → (b ≤ NextBatch (db m))%Z) →
  (∀ (n : string) (b : Z), History (db m) !! n = Some b →
     ∃ mig, mig ∈ migrations m ∧ Name mig = n) →
  order_inv m →
  migrationsToRevert_of m = done ++ rest →
  migrations m' = migrations m →
  History (db m') = erase_all done (History (db m)) →
  applied_order (calls (schema m')) =
    filter (λ n, n ∉ Name <$> done) (applied_order (calls (schema m))) →
  NextBatch (db m') = NextBatch (db m)
  ∨ (∀ (n : string) (b : Z), History (db m') !! n = Some b → (b < NextBatch (db m'))%Z) →
  order_inv m'.
Proof.
  intros Hss Hle Hreg [Hond Hdom Hsorted Hnext] Hsplit Hmigs Hhist Horder Hcases.
  assert (∀ n : string, n ∉ Name <$> done →
            History (db m') !! n = History (db m) !! n) as Hsame.
  { intros n Hn. rewrite Hhist, lookup_erase_all. by rewrite decide_False. }
  split; rewrite ?Horder.
  - by apply NoDup_filter.
  - intros n. rewrite list_elem_of_filter, Hdom, Hhist, lookup_erase_all.
    case_decide as Hn; [|naive_solver]. split; [naive_solver|]. by intros [? ?].
  - eapply StronglySorted_impl_in; [by apply StronglySorted_filter|].
    intros x y [Hx _]%list_elem_of_filter [Hy _]%list_elem_of_filter.
    unfold batch_name_lt. by rewrite !Hsame.
  - intros x mig Hx [Hnone Hin]%elem_of_pending_of.
    destruct Hcases as [Heq|Hbelow]; [|apply Hbelow in Hx; lia].
    rewrite Heq, Hhist, lookup_erase_all in Hx. case_decide as Hxdone; [done|].
    rewrite Hmigs in Hin. rewrite Hhist, lookup_erase_all in Hnone.
    case_decide as Hdone; [|apply Hnext; [done|by apply elem_of_pending_of]].
    pose proof Hdone as [Hlast _]%(erased_were_in_last_batch m done rest); [|done].
    assert (GetLastBatch (db m) = NextBatch (db m)) as Heql.
    { pose proof (Hle _ _ Hlast). pose proof (GetLastBatch_ub _ _ _ Hx). lia. }
    destruct (Hreg _ _ Hx) as (mx & Hmx & <-).
    assert (mx ∈ migrationsToRevert_of m) as Hrev.
    { apply elem_of_migrationsToRevert_of. by rewrite Heql. }
    rewrite Hsplit in Hrev. apply elem_of_app in Hrev as [Hrev|Hrev].
    { destruct Hxdone. by apply list_elem_of_fmap_2. }
    apply (revert_split_gt m done rest); [done..|]. by apply list_elem_of_fmap_2.
Qed.

Lemma order_inv_run (migs : list (Migration World)) w tr m :
  NoDup (Name <$> migs) →
  run (NewMigrator migs (fresh_schema w)) tr m →
  (Z.of_nat (migrate_calls tr) < max_int)%Z →
  order_inv m.
Proof.
  intros Hnd Hrun.
  assert (∀ m', migrations m' = migrations (NewMigrator migs (fresh_schema w)) →
            NoDup (Name <$> migrations m')
            ∧ StronglySorted name_lt (Name <$> migrations m')) as Hstatic.
  { intros m' ->.
    assert (NoDup (Name <$> migrations (NewMigrator migs (fresh_schema w)))) as Hnd'.
    { by rewrite (NewMigrator_perm migs (fresh_schema w)). }
    split; [done|]. apply sorted_names_strict; [apply NewMigrator_sorted|done]. }
  induction Hrun as [|tr m Hrun IH|tr m Hrun IH|tr m Hrun IH|tr m w' Hrun IH]; intros Hlen.
  - split; simpl.
    + constructor.
    + intros n. rewrite lookup_empty, elem_of_nil. split; [done|by intros [? ?]].
    + constructor.
    + intros x mig. by rewrite lookup_empty.
  - rewrite migrate_calls_Migrated in Hlen.
    assert (Z.of_nat (migrate_calls tr) < max_int)%Z as Hlen' by lia.
    specialize (IH Hlen').
    destruct (ledger_inv_run (NewMigrator migs (fresh_schema w)) tr m eq_refl Hrun Hlen') as [_ Hbatch _ _].
    destruct (Hstatic m (run_migrations _ _ _ Hrun)) as [Hnd_m Hss].
    destruct (Migrate_log m) as (done & rest & Hsplit & Hmigs & Hhist & Hcalls & _ & Hcases).
    apply (order_inv_record m _ done rest); try done.
    + intros n b Hb%Hbatch. lia.
    + rewrite Hcalls, !applied_order_app, foldl_app, applied_failed_up.
      apply applied_ups_ok.
      * apply NoDup_names_pending in Hnd_m. rewrite Hsplit, fmap_app in Hnd_m.
        by apply NoDup_app in Hnd_m as [? _].
      * intros n Hn [b Hb]%(ord_dom m IH).
        apply (recorded_were_pending m done rest) in Hn as [? _]; [congruence|done].
  - change (migrate_calls (RolledBack (Rollback m).2 :: tr)) with (migrate_calls tr) in Hlen.
    specialize (IH Hlen).
    destruct (ledger_inv_run (NewMigrator migs (fresh_schema w)) tr m eq_refl Hrun Hlen)
      as [_ Hbatch Hreg _].
    pose proof (run_migrations _ _ _ Hrun) as Hmigs0.
    destruct (Hstatic m Hmigs0) as [Hnd_m Hss].
    assert (∀ (n : string) (b : Z), History (db m) !! n = Some b →
              ∃ mig, mig ∈ migrations m ∧ Name mig = n) as Hreg'.
    { intros n b Hb. destruct (Hreg _ _ Hb) as (mig & ? & ?). exists mig. by rewrite Hmigs0. }
    destruct (Rollback_log m)
      as (done & rest & Hsplit & Hmigs & Hhist & Hcalls & _ & Hcases).
    { intros H0. rewrite migrationsToRevert_of_filter, filter_nil_Forall; [done|].
      intros mig _ Hb. rewrite H0 in Hb. apply Hbatch in Hb. lia. }
    apply (order_inv_erase m _ done rest); try done.
    + intros n b Hb%Hbatch. lia.
    + by rewrite Hcalls, !applied_order_app, foldl_app, applied_failed_down, applied_downs_ok.
    + destruct Hcases as [?|(-> & _ & ->)]; [by left|right].
      rewrite Hhist. apply Rollback_complete_below; [done|by rewrite Hsplit, app_nil_r].
  - rewrite Status_id. by apply IH.
  - destruct IH as [? ? ? ?]; [done|]. by split.
Qed.

(** The members of the highest batch, read in the order of their
    application, are the registered members in the order of their names. *)
Lemma last_batch_in_applied_order m :
  StronglySorted name_lt (Name <$> migrations m) →
  NoDup (Name <$> migrations m) →
  (∀ (n : string) (b : Z), History (db m) !! n = Some b →
     ∃ mig, mig ∈ migrations m ∧ Name mig = n) →
  order_inv m →
  filter (λ n, History (db m) !! n = Some (GetLastBatch (db m))) (Name <$> migrations m)
  = filter (λ n, History (db m) !! n = Some (GetLastBatch (db m)))
      (applied_order (calls (schema m))).
Proof.
  intros Hss Hnd Hreg [Hond Hdom Hsorted _].
  apply (StronglySorted_unique_strong name_lt).
  - intros x y _ _ Hxy Hyx. destruct (name_lt_asym x y Hxy Hyx).
  - by apply StronglySorted_filter.
  - eapply StronglySorted_impl_in; [by apply StronglySorted_filter|].
    intros x y [Hx _]%list_elem_of_filter [Hy _]%list_elem_of_filter
      (bx & by_ & Hbx & Hby & Hlt).
    destruct Hlt as [Hlt|[_ Hlt]]; [|done]. rewrite Hx in Hbx. rewrite Hy in Hby.
    injection Hbx as <-. injection Hby as <-. lia.
  - apply NoDup_Permutation; [by apply NoDup_filter..|].
    intros n. rewrite !list_elem_of_filter, Hdom.
    split; intros [Hn _]; (split; [done|]).
    + by exists (GetLastBatch (db m)).
    + destruct (Hreg _ _ Hn) as (mig & Hin & <-). by apply list_elem_of_fmap_2.
Qed.

(** What [Rollback] logs, in a state whose history is not empty. *)
Lemma Rollback_log_nonempty m :
  GetLastBatch (db m) ≠ 0%Z →
  ∃ done rest,
    migrationsToRevert_of m = done ++ rest
    ∧ calls (schema (Rollback m).1) = calls (schema m) ++ downs_ok done ++ failed_down rest
    ∧ ((Rollback m).2 = None ↔ rest = []).
Proof.
  intros Hne. destruct (Rollback_log m) as (reverted & rest & ? & _ & _ & ? & ? & _).
  { intros H0. by destruct Hne. }
  by exists reverted, rest.
Qed.

(** C3 (order of application and of reversal).

    For every state [ma] of a migrator, reachable or not:
    - when the registered list is in ascending order of name, so is the
      pending list;
    - [Migrate] calls [Up] along the pending list, stopping after the
      first call that fails, and returns [nil] exactly when it has gone
      through all of it;
    - when [NextBatch] is at least 1, every recorded batch number is below
      it, something is pending and [Migrate] returns [nil]: the [Up] calls
      are the pending migrations in their order, and the revert list of
      the [Rollback] that follows, whatever the state of the executor by
      then, is exactly these migrations in the reverse order, wherever
      they stand in the full list (the pending list is whatever part of
      the registered list has no entry, neighbours or not); [Rollback]
      calls [Down] along that list, stopping after the first call that
      fails.

    In every state [m] of a run of a migrator built by [NewMigrator] on an
    executor not yet called, the run having made fewer than [2^63 - 1]
    calls of [Migrate]:
    - the registered migrations are held in ascending order of name, and
      so are the pending ones;
    - [Rollback] calls [Down] along its revert list, stopping after the
      first call that fails, and returns [nil] exactly when it has gone
      through all of it; the revert list holds exactly the registered
      migrations recorded under the highest batch, and every name
      recorded under the highest batch is the name of one of them;
    - when the registered names are pairwise distinct, the names of the
      revert list are the members of the highest batch in the exact
      reverse of the order in which they were applied, also when the
      batch was built by several calls of [Migrate]. *)
Theorem C3_apply_ascending_revert_in_reverse
    (migs : list (Migration World)) w tr m (ma ma1 : Migrator World) :
  ((Sorted name_le (Name <$> migrations ma) → Sorted name_le (Name <$> pending_of ma))
   ∧ pending_of ma = filter (λ mig, History (db ma) !! Name mig = None) (migrations ma)
   ∧ (∃ done rest,
        pending_of ma = done ++ rest
        ∧ calls (schema (Migrate ma).1) = calls (schema ma) ++ ups_ok done ++ failed_up rest
        ∧ ((Migrate ma).2 = None ↔ rest = []))
   ∧ ((1 ≤ NextBatch (db ma))%Z →
      (∀ (n : string) (b : Z), History (db ma) !! n = Some b → (b < NextBatch (db ma))%Z) →
      pending_of ma ≠ [] →
      Migrate ma = (ma1, None) →
      calls (schema ma1) = calls (schema ma) ++ ups_ok (pending_of ma)
      ∧ ∀ w' : World,
          migrationsToRevert_of (with_world w' ma1) = reverse (pending_of ma)
          ∧ ∃ done rest,
              reverse (pending_of ma) = done ++ rest
              ∧ calls (schema (Rollback (with_world w' ma1)).1)
                = calls (schema ma1) ++ downs_ok done ++ failed_down rest
              ∧ ((Rollback (with_world w' ma1)).2 = None ↔ rest = [])))
  ∧
  (run (NewMigrator migs (fresh_schema w)) tr m →
   (Z.of_nat (migrate_calls tr) < max_int)%Z →
   Sorted name_le (Name <$> migrations m)
   ∧ pending_of m = filter (λ mig, History (db m) !! Name mig = None) (migrations m)
   ∧ Sorted name_le (Name <$> pending_of m)
   ∧ (∃ done rest,
        pending_of m = done ++ rest
        ∧ calls (schema (Migrate m).1) = calls (schema m) ++ ups_ok done ++ failed_up rest
        ∧ ((Migrate m).2 = None ↔ rest = []))
   ∧ (∃ done rest,
        migrationsToRevert_of m = done ++ rest
        ∧ calls (schema (Rollback m).1) = calls (schema m) ++ downs_ok done ++ failed_down rest
        ∧ ((Rollback m).2 = None ↔ rest = []))
   ∧ (∀ mig, mig ∈ migrationsToRevert_of m
             ↔ History (db m) !! Name mig = Some (GetLastBatch (db m)) ∧ mig ∈ migrations m)
   ∧ (∀ n : string, History (db m) !! n = Some (GetLastBatch (db m)) →
        n ∈ Name <$> migrationsToRevert_of m)
   ∧ (NoDup (Name <$> migs) →
        Name <$> migrationsToRevert_of m
        = reverse (filter (λ n, History (db m) !! n = Some (GetLastBatch (db m)))
                     (applied_order (calls (schema m)))))).
Proof.
  split.
  { split_and!.
    - apply sorted_names_pending.
    - apply pending_of_filter.
    - destruct (Migrate_log ma) as (done & rest & ? & _ & _ & ? & ? & _).
      by exists done, rest.
    - intros Hpos Hbelow Hpending Hmig.
      destruct (Migrate_fresh_batch ma ma1 Hpos Hbelow Hpending Hmig)
        as (Hlast & Hrevert & _ & Hcalls).
      split; [done|]. intros w'.
      rewrite migrationsToRevert_of_with_world. split; [done|].
      destruct (Rollback_log_nonempty (with_world w' ma1)) as (done & rest & Hsplit & Hc & Hr).
      { simpl. rewrite Hlast. lia. }
      rewrite migrationsToRevert_of_with_world, Hrevert in Hsplit.
      by exists done, rest. }
  intros Hrun Hlen.
  pose proof (run_migrations _ _ _ Hrun) as Hmigs.
  destruct (ledger_inv_run (NewMigrator migs (fresh_schema w)) tr m eq_refl Hrun Hlen)
    as [_ Hbatch Hreg _].
  assert (Sorted name_le (Name <$> migrations m)) as Hsorted.
  { rewrite Hmigs. apply NewMigrator_sorted. }
  assert (∀ (n : string) (b : Z), History (db m) !! n = Some b →
            ∃ mig, mig ∈ migrations m ∧ Name mig = n) as Hreg'.
  { intros n b Hb. destruct (Hreg _ _ Hb) as (mig & ? & ?). exists mig. by rewrite Hmigs. }
  split_and!.
  - done.
  - apply pending_of_filter.
  - by apply sorted_names_pending.
  - destruct (Migrate_log m) as (done & rest & ? & _ & _ & ? & ? & _). by exists done, rest.
  - destruct (Rollback_log m) as (done & rest & ? & _ & _ & ? & ? & _).
    { intros H0. rewrite migrationsToRevert_of_filter, filter_nil_Forall; [done|].
      intros mig _ Hb. rewrite H0 in Hb. apply Hbatch in Hb. lia. }
    by exists done, rest.
  - apply elem_of_migrationsToRevert_of.
  - intros n Hn. destruct (Hreg' _ _ Hn) as (mig & Hin & <-).
    apply list_elem_of_fmap_2. by apply elem_of_migrationsToRevert_of.
  - intros Hnd. rewrite names_migrationsToRevert_of. f_equal.
    assert (NoDup (Name <$> migrations m)) as Hnd'.
    { by rewrite Hmigs, (NewMigrator_perm migs (fresh_schema w)). }
    apply last_batch_in_applied_order; try done.
    + by apply sorted_names_strict.
    + by apply (order_inv_run migs w tr).
Qed.

End claims_order.

(** The example of the specification: registered as [003_x, 001_a, 002_b],
    the migrations are applied as [001_a, 002_b, 003_x] and reverted as
    [003_x, 002_b, 001_a]. *)
Example order_of_three :
  let m0 := NewMigrator [scripted "003_x"; scripted "001_a"; scripted "002_b"] (fresh_schema []) in
  calls (schema (Rollback (Migrate m0).1).1)
  = [CallUp "001_a" true; CallUp "002_b" true; CallUp "003_x" true;
     CallDown "003_x" true; CallDown "002_b" true; CallDown "001_a" true].
Proof. vm_compute. reflexivity. Qed.

(** ** The theorems at work on the scripted executor

    Each statement below instantiates one of the theorems above on a
    concrete migrator and checks its hypotheses by computation. *)

Lemma demo_names_distinct : NoDup (Name <$> demo_migrations).
Proof. apply (bool_decide_unpack _). vm_compute. exact I. Defined.

(** Round trip from the fresh migrator: everything succeeds. *)
Lemma C1_round_trip_witness :
  let m := demo [] in
  let m1 := (Migrate m).1 in
  let m2 := (Rollback m1).1 in
  (1 ≤ NextBatch (db m))%Z ∧ pending_of m ≠ []
  ∧ Migrate m = (m1, None) ∧ Rollback m1 = (m2, None)
  ∧ History (db m2) = History (db m) ∧ NextBatch (db m2) = NextBatch (db m).
Proof.
  intros m m1 m2.
  assert (1 ≤ NextBatch (db m))%Z as H1 by (vm_compute; discriminate).
  assert (pending_of m ≠ []) as H2 by (vm_compute; discriminate).
  assert (Migrate m = (m1, None)) as H3 by (vm_compute; reflexivity).
  assert (Rollback m1 = (m2, None)) as H4 by (vm_compute; reflexivity).
  assert (∀ (n : string) (b : Z), History (db m) !! n = Some b → (b < NextBatch (db m))%Z)
    as H0 by (intros n b Hb; vm_compute in Hb; discriminate).
  split; [exact H1|]. split; [exact H2|]. split; [exact H3|]. split; [exact H4|].
  exact (C1_round_trip_from_clean_state m m1 m2 H1 H0 H2 H3 H4).
Defined.

(** A [Migrate] whose second [Up] fails, and its retry: after the failure
    [NextBatch] is not below the highest batch, after the retry it is
    strictly above it again. *)
Lemma C2_next_batch_witness :
  let m0 := demo [true; false] in
  let tr := [Migrated (Migrate m0).2] in
  let m := (Migrate m0).1 in
  let m' := (Migrate m).1 in
  run m0 tr m ∧ (Z.of_nat (migrate_calls tr) < max_int)%Z
  ∧ (GetLastBatch (db m) ≤ NextBatch (db m))%Z
  ∧ Migrate m = (m', None) ∧ pending_of m ≠ []
  ∧ (GetLastBatch (db m') < NextBatch (db m'))%Z.
Proof.
  intros m0 tr m m'.
  assert (run m0 tr m) as Hrun by apply run_Migrate, run_start.
  assert (Z.of_nat (migrate_calls tr) < max_int)%Z as Hlen by (vm_compute; reflexivity).
  assert (Z.of_nat (migrate_calls tr) + 1 < max_int)%Z as Hlen1 by (vm_compute; reflexivity).
  assert (Migrate m = (m', None)) as Hmig by (vm_compute; reflexivity).
  assert (pending_of m ≠ []) as Hpend by (vm_compute; discriminate).
  destruct (C2_next_batch_bounds_history demo_migrations (fresh_schema [true; false])
              tr m Hrun Hlen) as (Hle & _ & _ & Hretry & _).
  split; [exact Hrun|]. split; [exact Hlen|]. split; [exact Hle|].
  split; [exact Hmig|]. split; [exact Hpend|].
  exact (Hretry m' Hmig Hpend Hlen1).
Defined.

(** Two pending migrations that are not neighbours in the sorted list are
    applied in ascending order and reverted in the reverse order; and the
    batch built by a failed [Migrate] and its retry is reverted in the
    reverse of the order of application. *)
Lemma C3_order_witness :
  let ma := demo_gap in
  let ma1 := (Migrate ma).1 in
  let m0 := demo [true; false] in
  let tr := [Migrated (Migrate (Migrate m0).1).2; Migrated (Migrate m0).2] in
  let m := (Migrate (Migrate m0).1).1 in
  ((1 ≤ NextBatch (db ma))%Z ∧ pending_of ma ≠ [] ∧ Migrate ma = (ma1, None)
   ∧ Name <$> pending_of ma = ["001_a"; "003_x"]
   ∧ calls (schema ma1) = calls (schema ma) ++ ups_ok (pending_of ma)
   ∧ migrationsToRevert_of (with_world [] ma1) = reverse (pending_of ma))
  ∧ (run m0 tr m ∧ (Z.of_nat (migrate_calls tr) < max_int)%Z
     ∧ NoDup (Name <$> demo_migrations)
     ∧ Name <$> migrationsToRevert_of m
       = reverse (filter (λ n, History (db m) !! n = Some (GetLastBatch (db m)))
                    (applied_order (calls (schema m))))).
Proof.
  intros ma ma1 m0 tr m.
  assert (1 ≤ NextBatch (db ma))%Z as Hpos by (vm_compute; discriminate).
  assert (∀ (n : string) (b : Z), History (db ma) !! n = Some b → (b < NextBatch (db ma))%Z)
    as Hbelow.
  { intros n b Hb. unfold ma, demo_gap in Hb. simpl in Hb.
    apply lookup_insert_Some in Hb as [[_ <-]|[_ Hb]]; [reflexivity|].
    rewrite lookup_empty in Hb. discriminate. }
  assert (pending_of ma ≠ []) as Hpend by (vm_compute; discriminate).
  assert (Migrate ma = (ma1, None)) as Hmig by (vm_compute; reflexivity).
  assert (Name <$> pending_of ma = ["001_a"; "003_x"]) as Hnames by (vm_compute; reflexivity).
  assert (run m0 tr m) as Hrun by apply run_Migrate, run_Migrate, run_start.
  assert (Z.of_nat (migrate_calls tr) < max_int)%Z as Hlen by (vm_compute; reflexivity).
  destruct (C3_apply_ascending_revert_in_reverse demo_migrations [true; false]
              tr m ma ma1) as [(_ & _ & _ & Hgap) Hruns].
  destruct (Hgap Hpos Hbelow Hpend Hmig) as [Hups Hdowns].
  destruct (Hruns Hrun Hlen) as (_ & _ & _ & _ & _ & _ & _ & Hrev).
  split.
  - split; [exact Hpos|]. split; [exact Hpend|]. split; [exact Hmig|].
    split; [exact Hnames|]. split; [exact Hups|]. exact (proj1 (Hdowns [])).
  - split; [exact Hrun|]. split; [exact Hlen|]. split; [exact demo_names_distinct|].
    exact (Hrev demo_names_distinct).
Defined.

(** The second [Up] fails. *)
Lemma C4_partial_batch_witness :
  let m := demo [true; false] in
  let m1 := (Migrate m).1 in
  let e := Errorf_w "failed to run migration " "002_b" (ErrorString "cannot apply 002_b") in
  Migrate m = (m1, Some e) ∧ NextBatch (db m1) = NextBatch (db m).
Proof.
  intros m m1 e.
  assert (Migrate m = (m1, Some e)) as Hm by (vm_compute; reflexivity).
  split; [exact Hm|].
  destruct (C4_partial_batch_persists m m1 e Hm)
    as (done & failed & rest & _ & _ & _ & _ & _ & Hnext & _).
  exact Hnext.
Defined.

(** The second [Down] fails. *)
Lemma C5_rollback_failure_witness :
  let m := with_world [true; false] (Migrate (demo [])).1 in
  let m' := (Rollback m).1 in
  let e := Errorf_w "failed to rollback migration " "002_b"
             (ErrorString "cannot revert 002_b") in
  Rollback m = (m', Some e) ∧ NextBatch (db m') = NextBatch (db m).
Proof.
  intros m m' e.
  assert (Rollback m = (m', Some e)) as Hm by (vm_compute; reflexivity).
  split; [exact Hm|].
  destruct (C5_rollback_failure_stops m m' e Hm)
    as (done & failed & rest & cause & _ & _ & _ & _ & Hnext & _).
  exact Hnext.
Defined.

Lemma C6_second_migrate_witness :
  let m := demo [] in
  let m1 := (Migrate m).1 in
  Migrate m = (m1, None)
  ∧ Migrate (with_world [false] m1) = (with_world [false] m1, None).
Proof.
  intros m m1.
  assert (Migrate m = (m1, None)) as Hm by (vm_compute; reflexivity).
  split; [exact Hm|].
  exact (proj1 (C6_second_migrate_is_noop m m1 [false] Hm)).
Defined.

Lemma C7_status_witness :
  let m0 := demo [true; false] in
  let m := (Migrate m0).1 in
  run m0 [Migrated (Migrate m0).2] m ∧ (Status m).1 = m.
Proof.
  intros m0 m.
  assert (run m0 [Migrated (Migrate m0).2] m) as Hrun by apply run_Migrate, run_start.
  split; [exact Hrun|].
  exact (proj1 (C7_status_reports_every_migration demo_migrations
                  (fresh_schema [true; false]) _ m Hrun)).
Defined.

(** The second [Down] fails after the first one has erased its entry. *)
Lemma C8_erasure_witness :
  let m := with_world [true; false] (Migrate (demo [])).1 in
  let m' := (Rollback m).1 in
  let e := Errorf_w "failed to rollback migration " "002_b"
             (ErrorString "cannot revert 002_b") in
  Rollback m = (m', Some e)
  ∧ ∃ done failed rest,
      migrationsToRevert_of m = done ++ failed :: rest
      ∧ ∀ mig, mig ∈ done → History (db m') !! Name mig = None.
Proof.
  intros m m' e.
  assert (Rollback m = (m', Some e)) as Hm by (vm_compute; reflexivity).
  split; [exact Hm|].
  destruct (C8_reverted_entries_erased_on_failure m m' e Hm)
    as (done & failed & rest & Hsplit & _ & Hgone).
  exists done, failed, rest. split; [exact Hsplit|].
  intros mig Hin. exact (proj2 (Hgone mig Hin)).
Defined.

Lemma C9_orphan_witness :
  (∀ mig, mig ∈ migrations demo_orphan →
     History (db demo_orphan) !! Name mig ≠ Some (GetLastBatch (db demo_orphan)))
  ∧ Rollback demo_orphan = (demo_orphan, None).
Proof.
  assert (∀ mig, mig ∈ migrations demo_orphan →
     History (db demo_orphan) !! Name mig ≠ Some (GetLastBatch (db demo_orphan))) as Horphan.
  { intros mig Hin. simpl in Hin. apply list_elem_of_singleton in Hin as ->.
    vm_compute. discriminate. }
  split; [exact Horphan|].
  exact (proj1 (C9_orphan_batch_blocks_rollback demo_orphan Horphan)).
Defined.

Lemma C10_range_witness :
  let m0 := demo [true; false] in
  let tr := [RolledBack (Rollback (Migrate m0).1).2; Migrated (Migrate m0).2] in
  let m := (Rollback (Migrate m0).1).1 in
  run m0 tr m ∧ (Z.of_nat (migrate_calls tr) < max_int)%Z
  ∧ (1 ≤ NextBatch (db m))%Z.
Proof.
  intros m0 tr m.
  assert (run m0 tr m) as Hrun by apply run_Rollback, run_Migrate, run_start.
  assert (Z.of_nat (migrate_calls tr) < max_int)%Z as Hlen by (vm_compute; reflexivity).
  split; [exact Hrun|]. split; [exact Hlen|].
  exact (proj1 (C10_batch_numbers_in_range demo_migrations (fresh_schema [true; false])
                  tr m Hrun Hlen)).
Defined.

(** ** Further properties of the ledger and of the three operations *)

Section more_ledger.
Context {World : Type}.
Implicit Types (m : Migrator World) (mig : Migration World) (s : SimulatedDB).
Implicit Types (hist : gmap string Z) (sch : Schema World) (w : World).
Implicit Types (done rest pending : list (Migration World)) (tr : list event).

Lemma Sorted_weaken {A : Type} (R R' : relation A) (l : list A) :
  (∀ x y, R x y → R' x y) → Sorted R l → Sorted R' l.
Proof.
  intros Himpl. induction 1 as [|x l Hl IH Hx]; constructor; [done|].
  destruct Hx; constructor. by apply Himpl.
Qed.

Lemma names_sorted_unique (l1 l2 : list string) :
  Sorted name_le l1 → Sorted name_le l2 → l1 ≡ₚ l2 → l1 = l2.
Proof.
  intros H1 H2. apply (StronglySorted_unique_strong name_le).
  - intros x y _ _ Hxy Hyx. by apply String.leb_antisym.
  - apply Sorted.Sorted_StronglySorted; [|done]. intros a b c. apply name_le_trans.
  - apply Sorted.Sorted_StronglySorted; [|done]. intros a b c. apply name_le_trans.
Qed.

(** [GetLastBatch] is the largest batch number of the history, with 0 as
    its floor: it is 0 on an empty history, never negative, at least every
    recorded batch number, and, when it is not 0, the batch number of some
    entry. *)
Theorem GetLastBatch_is_highest s :
  (History s = ∅ → GetLastBatch s = 0%Z)
  ∧ (0 ≤ GetLastBatch s)%Z
  ∧ (∀ (n : string) (b : Z), History s !! n = Some b → (b ≤ GetLastBatch s)%Z)
  ∧ (GetLastBatch s ≠ 0%Z → ∃ n : string, History s !! n = Some (GetLastBatch s)).
Proof.
  split_and!.
  - intros Hempty. destruct (decide (GetLastBatch s = 0%Z)) as [|Hne]; [done|].
    destruct (GetLastBatch_witness s Hne) as [n Hn].
    rewrite Hempty, lookup_empty in Hn. done.
  - apply GetLastBatch_nonneg.
  - apply GetLastBatch_ub.
  - apply GetLastBatch_witness.
Qed.

(** [GetRanMigrations] returns the names of the history, each once, in
    ascending order. *)
Theorem GetRanMigrations_sorted_names s :
  Sorted name_le (GetRanMigrations s)
  ∧ NoDup (GetRanMigrations s)
  ∧ ∀ n : string, n ∈ GetRanMigrations s ↔ is_Some (History s !! n).
Proof.
  split_and!.
  - unfold GetRanMigrations, sort_Strings.
    eapply Sorted_weaken; [|apply sort_Slice_sorted, string_ltb_asym].
    intros a b Hab. by apply string_ltb_false_leb.
  - unfold GetRanMigrations, sort_Strings.
    rewrite sort_Slice_perm. apply NoDup_fst_map_to_list.
  - apply elem_of_GetRanMigrations.
Qed.

(** [NewMigrator] keeps every migration it is given, holds them in
    ascending order of name, starts from an empty history with [NextBatch]
    1, and the order of names it ends with does not depend on the order in
    which the migrations were registered. *)
Theorem NewMigrator_ignores_registration_order (migs migs' : list (Migration World)) sch :
  migrations (NewMigrator migs sch) ≡ₚ migs
  ∧ Sorted name_le (Name <$> migrations (NewMigrator migs sch))
  ∧ History (db (NewMigrator migs sch)) = ∅
  ∧ NextBatch (db (NewMigrator migs sch)) = 1%Z
  ∧ (migs' ≡ₚ migs →
       Name <$> migrations (NewMigrator migs' sch)
       = Name <$> migrations (NewMigrator migs sch)).
Proof.
  split_and!; try done.
  - apply NewMigrator_perm.
  - apply NewMigrator_sorted.
  - intros Hperm. apply names_sorted_unique; [apply NewMigrator_sorted..|].
    by rewrite !NewMigrator_perm, Hperm.
Qed.

(** On a migrator just built, [Rollback] returns [nil] and changes
    nothing, and [Status] prints every registered migration as pending,
    in ascending order of name, followed by the line saying that nothing
    has been run. *)
Theorem fresh_migrator_rollback_and_status (migs : list (Migration World)) sch :
  Rollback (NewMigrator migs sch) = (NewMigrator migs sch, None)
  ∧ (Status (NewMigrator migs sch)).2
    = [Title; Header; Rule]
      ++ (Pending <$> (Name <$> migrations (NewMigrator migs sch)))
      ++ [NothingRanYet; Rule].
Proof.
  split; [done|].
  unfold Status.
  pose proof (status_rows_fst (History (db (NewMigrator migs sch)))
                (migrations (NewMigrator migs sch)) 0) as Hrows.
  destruct (status_rows _ _ _) as [rows k]. simpl in Hrows. subst rows.
  assert (GetRanMigrations (db (NewMigrator migs sch)) = []) as ->.
  { unfold GetRanMigrations. simpl. by rewrite map_to_list_empty. }
  rewrite andb_false_r. simpl. do 3 f_equal.
  rewrite <- list_fmap_compose. reflexivity.
Qed.

(** [Migrate] only adds to the history: every entry present before is
    kept as it was; every entry it adds belongs to a registered migration
    that had none, and is recorded under the value [NextBatch] had; the
    registered list is untouched; [NextBatch] stays or moves on by one;
    and when [Migrate] returns [nil] nothing is pending any more. *)
Theorem Migrate_only_adds_pending m :
  (∀ (n : string) (b : Z), History (db m) !! n = Some b →
     History (db (Migrate m).1) !! n = Some b)
  ∧ (∀ (n : string) (b : Z), History (db (Migrate m).1) !! n = Some b →
       History (db m) !! n = Some b
       ∨ History (db m) !! n = None ∧ b = NextBatch (db m)
         ∧ ∃ mig, mig ∈ migrations m ∧ Name mig = n)
  ∧ migrations (Migrate m).1 = migrations m
  ∧ (NextBatch (db (Migrate m).1) = NextBatch (db m)
     ∨ NextBatch (db (Migrate m).1) = wrap_int (NextBatch (db m) + 1))
  ∧ ((Migrate m).2 = None → pending_of (Migrate m).1 = []).
Proof.
  destruct (Migrate_shape m) as (done & rest & Hsplit & Hmigs & Hhist & Hcases & Hnil).
  split_and!.
  - intros n b Hb. rewrite Hhist, lookup_record_all. rewrite decide_False; [done|].
    intros [Hnone _]%(recorded_were_pending m done rest); [congruence|done].
  - intros n b. rewrite Hhist, lookup_record_all. case_decide as Hn; [|by left].
    intros [= <-]. right.
    apply (recorded_were_pending m done rest) in Hn as [? ?]; done.
  - done.
  - destruct Hcases as [[? _]|(_ & _ & _ & ?)]; [by left|by right].
  - intros Hres. specialize (Hnil Hres). subst rest. rewrite app_nil_r in Hsplit.
    rewrite (pending_after_record (NextBatch (db m)) m _ done []);
      [done|by rewrite app_nil_r|done|done].
Qed.

(** [Rollback] only removes from the history, and only registered
    members of the highest batch: every entry left was there before;
    every entry of another batch, and every entry of a name that is not
    registered, is kept; the registered list is untouched; [NextBatch]
    stays or becomes the highest batch number. *)
Theorem Rollback_only_removes_last_batch m :
  (∀ (n : string) (b : Z), History (db (Rollback m).1) !! n = Some b →
     History (db m) !! n = Some b)
  ∧ (∀ (n : string) (b : Z), History (db m) !! n = Some b →
       b ≠ GetLastBatch (db m) → History (db (Rollback m).1) !! n = Some b)
  ∧ (∀ n : string, (∀ mig, mig ∈ migrations m → Name mig ≠ n) →
       History (db (Rollback m).1) !! n = History (db m) !! n)
  ∧ migrations (Rollback m).1 = migrations m
  ∧ (NextBatch (db (Rollback m).1) = NextBatch (db m)
     ∨ NextBatch (db (Rollback m).1) = GetLastBatch (db m)).
Proof.
  destruct (Rollback_shape m) as (done & rest & Hsplit & Hmigs & Hhist & Hcases).
  split_and!.
  - intros n b. rewrite Hhist, lookup_erase_all. by case_decide.
  - intros n b Hb Hne. rewrite Hhist, lookup_erase_all. rewrite decide_False; [done|].
    intros [Hlast _]%(erased_were_in_last_batch m done rest); [congruence|done].
  - intros n Hfresh. rewrite Hhist, lookup_erase_all. rewrite decide_False; [done|].
    intros [_ (mig & Hin & Hname)]%(erased_were_in_last_batch m done rest); [|done].
    by apply (Hfresh mig).
  - done.
  - destruct Hcases as [[? _]|(_ & _ & _ & _ & ?)]; [by left|by right].
Qed.

(** The error of [Migrate] names the migration whose [Up] failed, which
    was pending, and wraps the error that [Up] returned. *)
Theorem Migrate_error_names_the_migration m m' (e : error) :
  Migrate m = (m', Some e) →
  ∃ failed cause,
    failed ∈ pending_of m
    ∧ (∃ w, (Up failed w).2 = Some cause)
    ∧ Unwrap e = Some cause
    ∧ Error e = "failed to run migration " +:+ Name failed +:+ ": " +:+ Error cause.
Proof.
  intros (done & failed & rest & cause & w & Hsplit & _ & _ & _ & _ & Hup & ->)%Migrate_err.
  exists failed, cause. split_and!; try done; [|by exists w].
  rewrite Hsplit. apply elem_of_app. right. by left.
Qed.

Lemma failing_call_is_registered m :
  (∀ e, (Migrate m).2 = Some e →
     ∃ failed w, failed ∈ migrations m ∧ (Up failed w).2 ≠ None)
  ∧ (∀ e, (Rollback m).2 = Some e →
       ∃ failed w, failed ∈ migrations m ∧ (Down failed w).2 ≠ None).
Proof.
  split; intros e He.
  - destruct (Migrate m) as [m' r] eqn:Hm. simpl in He. subst r.
    apply Migrate_err in Hm
      as (done & failed & rest & cause & w & Hsplit & _ & _ & _ & _ & Hup & _).
    assert (failed ∈ pending_of m) as [_ Hin]%elem_of_pending_of.
    { rewrite Hsplit. apply elem_of_app. right. by left. }
    exists failed, w. split; [done|]. by rewrite Hup.
  - destruct (Rollback m) as [m' r] eqn:Hm. simpl in He. subst r.
    apply Rollback_err in Hm
      as (done & failed & rest & cause & w & Hsplit & _ & _ & _ & _ & _ & Hdown & _).
    assert (failed ∈ migrationsToRevert_of m) as [_ Hin]%elem_of_migrationsToRevert_of.
    { rewrite Hsplit. apply elem_of_app. right. by left. }
    exists failed, w. split; [done|]. by rewrite Hdown.
Qed.

(** When no call of a registered migration can fail, neither [Migrate] nor
    [Rollback] returns an error. *)
Theorem no_failure_without_failing_calls m :
  (∀ mig, mig ∈ migrations m → never_fails mig) →
  (Migrate m).2 = None ∧ (Rollback m).2 = None.
Proof.
  intros Hok. destruct (failing_call_is_registered m) as [Hup Hdown]. split.
  - destruct (Migrate m).2 as [e|] eqn:Hm; [|done].
    destruct (Hup e eq_refl) as (failed & w & Hin & Hfail).
    by destruct (Hok failed Hin w) as [? _].
  - destruct (Rollback m).2 as [e|] eqn:Hm; [|done].
    destruct (Hdown e eq_refl) as (failed & w & Hin & Hfail).
    by destruct (Hok failed Hin w) as [_ ?].
Qed.

End more_ledger.

Section more_runs.
Context {World : Type}.
Implicit Types (m : Migrator World) (mig : Migration World) (s : SimulatedDB).
Implicit Types (hist : gmap string Z) (sch : Schema World) (w : World).
Implicit Types (done rest pending : list (Migration World)) (tr : list event).

(** *** The closing line of [Status] *)

Lemma status_rows_snd hist (migs : list (Migration World)) (k : nat) :
  (status_rows hist migs k).2
  = (k + length (filter (λ mig, hist !! Name mig = None) migs))%nat.
Proof.
  revert k. induction migs as [|mig migs IH]; intros k; simpl; [lia|].
  specialize (IH (match hist !! Name mig with Some _ => k | None => S k end)).
  destruct (status_rows hist migs _) as [rows n]. simpl in *. rewrite IH.
  rewrite filter_cons. destruct (hist !! Name mig) eqn:Hl.
  - by rewrite decide_False.
  - rewrite decide_True by done. simpl. lia.
Qed.

Lemma GetRanMigrations_nil s : GetRanMigrations s = [] ↔ History s = ∅.
Proof.
  unfold GetRanMigrations, sort_Strings. split.
  - intros Hnil. apply map_to_list_empty_iff, (fmap_nil_inv fst).
    apply Permutation_nil_r. by rewrite <- (sort_Slice_perm String.ltb), Hnil.
  - intros ->. by rewrite map_to_list_empty.
Qed.

Lemma status_row_no_summary hist (migs : list (Migration World)) (l : line) :
  l ∈ status_row hist <$> migs → l ≠ FullyUpToDate ∧ l ≠ NothingRanYet.
Proof.
  intros (mig & -> & _)%list_elem_of_fmap. unfold status_row.
  by destruct (hist !! Name mig).
Qed.

Lemma Status_output m :
  (Status m).2
  = [Title; Header; Rule]
    ++ (status_row (History (db m)) <$> migrations m)
    ++ (if (length (pending_of m) =? 0)%nat
           && negb (length (GetRanMigrations (db m)) =? 0)%nat
        then [FullyUpToDate]
        else if (length (GetRanMigrations (db m)) =? 0)%nat then [NothingRanYet] else [])
    ++ [Rule].
Proof.
  unfold Status.
  pose proof (status_rows_fst (History (db m)) (migrations m) 0) as Hrows.
  pose proof (status_rows_snd (History (db m)) (migrations m) 0) as Hcount.
  destruct (status_rows _ _ _) as [rows k]. simpl in Hrows, Hcount. subst rows.
  rewrite <- pending_of_filter in Hcount. simpl in Hcount. by subst k.
Qed.

(** [Status] closes its table with the line "fully up to date" exactly when
    no registered migration is pending and the history is not empty, and
    with the line "no migrations have been run yet" exactly when the
    history is empty. *)
Theorem Status_closing_line m :
  (FullyUpToDate ∈ (Status m).2 ↔ pending_of m = [] ∧ History (db m) ≠ ∅)
  ∧ (NothingRanYet ∈ (Status m).2 ↔ History (db m) = ∅).
Proof.
  rewrite Status_output.
  pose proof (status_row_no_summary (History (db m)) (migrations m)) as Hno.
  pose proof (GetRanMigrations_nil (db m)) as Hran.
  rewrite <- (length_eqb_0 (GetRanMigrations (db m))) in Hran.
  pose proof (length_eqb_0 (pending_of m)) as Hpend.
  destruct (length (pending_of m) =? 0)%nat, (length (GetRanMigrations (db m)) =? 0)%nat;
    simpl; rewrite !elem_of_cons, !elem_of_app, !elem_of_cons, ?elem_of_nil;
    split; split; try naive_solver.
  all: intros [?|[?|[?|[?%Hno|?]]]]; naive_solver.
Qed.

(** *** What runs of a migrator built by [NewMigrator] never do *)

Lemma run_history_registered (m0 : Migrator World) tr m :
  History (db m0) = ∅ → run m0 tr m →
  ∀ (n : string) (b : Z), History (db m) !! n = Some b →
    ∃ mig, mig ∈ migrations m ∧ Name mig = n.
Proof.
  intros Hnew.
  induction 1 as [|tr m Hrun IH|tr m Hrun IH|tr m Hrun IH|tr m w Hrun IH]; intros n b.
  - by rewrite Hnew, lookup_empty.
  - destruct (Migrate_shape m) as (done & rest & Hsplit & -> & Hhist & _).
    rewrite Hhist, lookup_record_all. case_decide as Hn; [|apply IH].
    intros _. by apply (recorded_were_pending m done rest) in Hn as [_ ?].
  - destruct (Rollback_shape m) as (done & rest & Hsplit & -> & Hhist & _).
    rewrite Hhist, lookup_erase_all. case_decide as Hn; [done|apply IH].
  - rewrite Status_id. apply IH.
  - apply IH.
Qed.

(** In a run of a migrator built by [NewMigrator], whatever the executor
    calls return, every name of the history is the name of a registered
    migration; hence [Rollback] never finds a highest batch without a
    registered member: when the history is not empty it has something to
    revert. *)
Theorem run_never_orphans_a_batch (migs : list (Migration World)) sch0 tr m :
  run (NewMigrator migs sch0) tr m →
  (∀ n : string, is_Some (History (db m) !! n) → n ∈ Name <$> migs)
  ∧ (GetLastBatch (db m) ≠ 0%Z → migrationsToRevert_of m ≠ []).
Proof.
  intros Hrun.
  pose proof (run_history_registered (NewMigrator migs sch0) tr m eq_refl Hrun) as Hreg.
  pose proof (run_migrations _ _ _ Hrun) as Hmigs.
  split.
  - intros n [b Hb]. destruct (Hreg n b Hb) as (mig & Hin & <-).
    rewrite Hmigs in Hin. rewrite <- (NewMigrator_perm migs sch0).
    by apply list_elem_of_fmap_2.
  - intros Hne Hnil. destruct (GetLastBatch_witness _ Hne) as [n Hn].
    destruct (Hreg n _ Hn) as (mig & Hin & <-).
    assert (mig ∈ migrationsToRevert_of m) as Hrev
      by (by apply elem_of_migrationsToRevert_of).
    rewrite Hnil in Hrev. by apply elem_of_nil in Hrev.
Qed.

(** *** The history and the call log agree *)

Lemma elem_of_applied_ups (done : list (Migration World)) (acc : list string) (n : string) :
  n ∈ foldl applied_step acc (ups_ok done) ↔ n ∈ acc ∨ n ∈ Name <$> done.
Proof.
  revert acc. induction done as [|mig done IH]; intros acc.
  { simpl. rewrite elem_of_nil. naive_solver. }
  change (foldl applied_step acc (ups_ok (mig :: done)))
    with (foldl applied_step (filter (λ k, k ≠ Name mig) acc ++ [Name mig]) (ups_ok done)).
  rewrite IH, fmap_cons, elem_of_app, list_elem_of_filter, list_elem_of_singleton,
    elem_of_cons.
  destruct (decide (n = Name mig)); naive_solver.
Qed.

Lemma elem_of_applied_downs (done : list (Migration World)) (acc : list string) (n : string) :
  n ∈ foldl applied_step acc (downs_ok done) ↔ n ∈ acc ∧ n ∉ Name <$> done.
Proof. rewrite applied_downs_ok, list_elem_of_filter. naive_solver. Qed.

(** In a run of a migrator built by [NewMigrator] on an executor not yet
    called, whatever the calls return: a name is in the history exactly
    when, in the log of executor calls, its last successful call is an
    [Up], that is, exactly the migrations whose [Up] returned [nil] and
    was not undone by a [Down] that returned [nil] are recorded. *)
Theorem history_matches_call_log (migs : list (Migration World)) w tr m :
  run (NewMigrator migs (fresh_schema w)) tr m →
  ∀ n : string, is_Some (History (db m) !! n) ↔ n ∈ applied_order (calls (schema m)).
Proof.
  induction 1 as [|tr m Hrun IH|tr m Hrun IH|tr m Hrun IH|tr m w' Hrun IH]; intros n.
  - simpl. rewrite lookup_empty, elem_of_nil. split; [by intros [? ?]|done].
  - destruct (Migrate_log m) as (done & rest & _ & _ & Hhist & Hcalls & _).
    rewrite Hcalls, Hhist, !applied_order_app, foldl_app, applied_failed_up.
    rewrite elem_of_applied_ups, <- IH, lookup_record_all.
    case_decide; naive_solver.
  - destruct (Rollback m) as [m' [e|]] eqn:Hroll; simpl.
    + apply Rollback_err in Hroll
        as (done & failed & rest & cause & w0 & _ & _ & _ & Hhist & _ & Hcalls & _).
      rewrite Hcalls, Hhist, !applied_order_app, foldl_app. simpl.
      rewrite elem_of_applied_downs, <- IH, lookup_erase_all.
      case_decide; [|naive_solver]. split; [by intros [? ?]|naive_solver].
    + apply Rollback_ok in Hroll as [[_ ->]|(_ & _ & _ & Hhist & _ & Hcalls)]; [apply IH|].
      rewrite Hcalls, Hhist, applied_order_app.
      rewrite elem_of_applied_downs, <- IH, lookup_erase_all.
      case_decide; [|naive_solver]. split; [by intros [? ?]|naive_solver].
  - rewrite Status_id. apply IH.
  - apply IH.
Qed.

(** *** Rolling back and migrating again *)

(** From a state in which nothing is pending, [NextBatch] is one above the
    highest batch and not the largest [int], and the members of the
    highest batch are registered: a [Rollback] that returns [nil] followed
    by a [Migrate] that returns [nil], whatever the state of the executor
    by then, applies the reverted migrations again under the same batch
    number and leaves the history and [NextBatch] as they were. *)
Theorem rollback_then_migrate_restores m m1 m2 w :
  pending_of m = [] →
  GetLastBatch (db m) ≠ 0%Z →
  NextBatch (db m) = (GetLastBatch (db m) + 1)%Z →
  (NextBatch (db m) ≤ max_int)%Z →
  (∀ n : string, History (db m) !! n = Some (GetLastBatch (db m)) →
     ∃ mig, mig ∈ migrations m ∧ Name mig = n) →
  Rollback m = (m1, None) →
  Migrate (with_world w m1) = (m2, None) →
  History (db m2) = History (db m)
  ∧ NextBatch (db m2) = NextBatch (db m)
  ∧ calls (schema m2)
    = calls (schema m) ++ downs_ok (migrationsToRevert_of m)
      ++ ups_ok (reverse (migrationsToRevert_of m)).
Proof.
  intros Hnone Hne Hnext Hmax Hreg Hroll Hmig.
  pose proof (GetLastBatch_nonneg (db m)) as Hpos.
  assert (∀ mig, mig ∈ migrations m → is_Some (History (db m) !! Name mig)) as Hall.
  { intros mig Hin. apply not_eq_None_Some. intros Hn.
    assert (mig ∈ pending_of m) as Hp by (by apply elem_of_pending_of).
    rewrite Hnone in Hp. by apply elem_of_nil in Hp. }
  apply Rollback_ok in Hroll as [[[?|Hnil] _]|(_ & _ & Hmigs1 & Hhist1 & Hnext1 & Hcalls1)];
    [done| |].
  { destruct (GetLastBatch_witness _ Hne) as [n Hn].
    destruct (Hreg n Hn) as (mig & Hin & <-).
    assert (mig ∈ migrationsToRevert_of m) as Hrev
      by (by apply elem_of_migrationsToRevert_of).
    rewrite Hnil in Hrev. by apply elem_of_nil in Hrev. }
  assert (pending_of (with_world w m1) = reverse (migrationsToRevert_of m)) as Hpend.
  { rewrite pending_of_with_world, pending_of_filter, Hmigs1, Hhist1.
    rewrite migrationsToRevert_of_filter, reverse_involutive.
    apply filter_ext_in. intros mig Hin. rewrite lookup_erase_all.
    rewrite <- migrationsToRevert_of_filter. case_decide as Hn.
    - apply (erased_were_in_last_batch m _ []) in Hn as [? _]; [done|by rewrite app_nil_r].
    - destruct (Hall mig Hin) as [b Hb]. rewrite Hb. split; [done|]. intros [= ->].
      destruct Hn. apply list_elem_of_fmap_2. by apply elem_of_migrationsToRevert_of. }
  apply Migrate_ok in Hmig as [[Hp _]|(_ & _ & Hhist2 & Hnext2 & Hcalls2)].
  { rewrite Hpend in Hp. apply (f_equal reverse) in Hp.
    rewrite reverse_involutive in Hp.
    destruct (GetLastBatch_witness _ Hne) as [n Hn].
    destruct (Hreg n Hn) as (mig & Hin & <-).
    assert (mig ∈ migrationsToRevert_of m) as Hrev
      by (by apply elem_of_migrationsToRevert_of).
    rewrite Hp in Hrev. by apply elem_of_nil in Hrev. }
  rewrite Hpend in Hhist2, Hcalls2. simpl in Hhist2, Hnext2, Hcalls2.
  split_and!.
  - rewrite Hhist2, Hhist1, Hnext1. apply map_eq. intros n.
    rewrite lookup_record_all, lookup_erase_all, fmap_reverse.
    case_decide as Hin.
    + rewrite elem_of_reverse in Hin. symmetry.
      by apply (erased_were_in_last_batch m _ []) in Hin as [? _]; [|by rewrite app_nil_r].
    + rewrite elem_of_reverse in Hin. by rewrite decide_False.
  - rewrite Hnext2, Hnext1, Hnext. apply wrap_int_small. unfold max_int in Hmax. lia.
  - rewrite Hcalls2, Hcalls1. by rewrite <- app_assoc.
Qed.

End more_runs.

(** ** The schema drivers *)

Section drivers.

Lemma string_app_assoc (a b c : string) : (a +:+ b) +:+ c = a +:+ b +:+ c.
Proof.
  induction a as [|x a IH]; [done|].
  change (String x ((a +:+ b) +:+ c) = String x (a +:+ b +:+ c)). by rewrite IH.
Qed.

(** The SQLite driver gives every column the type [TEXT]: for a non-empty
    column list its column clause is the columns, each followed by
    [" TEXT"], joined by [", "].  For an empty column list the clause is
    not empty but the lone type [" TEXT"]. *)
Theorem SQLite_every_column_is_TEXT (col : string) (columns : list string) :
  SQLite_columnsSQL (col :: columns)
  = Join ((λ c, c +:+ " TEXT") <$> col :: columns) ", "
  ∧ SQLite_columnsSQL [] = " TEXT"
  ∧ (∀ name : string,
       SQLite_createStmt name [] = "CREATE TABLE IF NOT EXISTS " +:+ name +:+ " ( TEXT);").
Proof.
  split; [|done]. unfold SQLite_columnsSQL.
  revert col. induction columns as [|c columns IH]; intros col; [done|].
  change (Join (col :: c :: columns) " TEXT, ")
    with (col +:+ " TEXT, " +:+ Join (c :: columns) " TEXT, ").
  change (Join ((λ c, c +:+ " TEXT") <$> col :: c :: columns) ", ")
    with ((col +:+ " TEXT") +:+ ", " +:+ Join ((λ c, c +:+ " TEXT") <$> c :: columns) ", ").
  rewrite <- IH, !string_app_assoc. reflexivity.
Qed.

Lemma columnDefs_loop_spec (first other : string → string) (i : nat)
    (columns columnDefs : list string) :
  columnDefs_loop first other i columns columnDefs
  = columnDefs
    ++ match columns with
       | [] => []
       | col :: rest => (if (i =? 0)%nat then first col else other col) :: (other <$> rest)
       end.
Proof.
  revert i columnDefs. induction columns as [|col rest IH]; intros i columnDefs; simpl.
  { by rewrite app_nil_r. }
  rewrite IH, <- app_assoc. simpl. by destruct rest.
Qed.

(** The MySQL and the PostgreSQL driver define one column per name, in
    order: the first name becomes the primary key, every other name a
    [VARCHAR(255) NOT NULL] column; with no names there is no definition
    and the column clause is empty. *)
Theorem only_first_column_is_primary_key (name col : string) (columns : list string) :
  MySQL_createStmt name (col :: columns)
  = "CREATE TABLE IF NOT EXISTS `" +:+ name +:+ "` ("
    +:+ Join (MySQL_first col :: (MySQL_other <$> columns)) ", "
    +:+ ") ENGINE=InnoDB DEFAULT CHARSET=utf8mb4;"
  ∧ Postgres_createStmt name (col :: columns)
    = "CREATE TABLE IF NOT EXISTS " +:+ name +:+ " ("
      +:+ Join (Postgres_first col :: (Postgres_other <$> columns)) ", " +:+ ");"
  ∧ length (columnDefs_loop MySQL_first MySQL_other 0 (col :: columns) [])
    = length (col :: columns)
  ∧ length (columnDefs_loop Postgres_first Postgres_other 0 (col :: columns) [])
    = length (col :: columns)
  ∧ MySQL_createStmt name []
    = "CREATE TABLE IF NOT EXISTS `" +:+ name +:+ "` () ENGINE=InnoDB DEFAULT CHARSET=utf8mb4;"
  ∧ Postgres_createStmt name [] = "CREATE TABLE IF NOT EXISTS " +:+ name +:+ " ();".
Proof.
  unfold MySQL_createStmt, Postgres_createStmt.
  rewrite !columnDefs_loop_spec. simpl. rewrite !length_fmap. done.
Qed.


(** On each of the four schemas, [CreateUsersTable] is a migration none of
    whose calls can fail, so a migrator that registers it returns [nil]
    from [Migrate] and from [Rollback]. *)
Theorem CreateUsersTable_never_fails (s : SchemaDriver (list string))
    (sch : Schema (list string)) :
  s ∈ [SimulatedSchema; SQLiteSchema; MySQLSchema; PostgresSchema] →
  Name (CreateUsersTable s) = "001_create_users_table"
  ∧ never_fails (CreateUsersTable s)
  ∧ (Migrate (NewMigrator (GetMigrations s) sch)).2 = None
  ∧ (Rollback (Migrate (NewMigrator (GetMigrations s) sch)).1).2 = None.
Proof.
  intros Hs.
  assert (never_fails (CreateUsersTable s)) as Hok.
  { rewrite !elem_of_cons, elem_of_nil in Hs.
    destruct Hs as [->|[->|[->|[->|[]]]]]; intros w; by split. }
  assert (∀ m : Migrator (list string),
            migrations m = [CreateUsersTable s] →
            (Migrate m).2 = None ∧ (Rollback m).2 = None) as Hall.
  { intros m Hmigs. destruct (failing_call_is_registered m) as [Hup Hdown]. split.
    - destruct (Migrate m).2 as [e|] eqn:Hm; [|done].
      destruct (Hup e eq_refl) as (failed & w & Hin & Hfail).
      rewrite Hmigs in Hin. apply list_elem_of_singleton in Hin as ->.
      by destruct (Hok w) as [? _].
    - destruct (Rollback m).2 as [e|] eqn:Hm; [|done].
      destruct (Hdown e eq_refl) as (failed & w & Hin & Hfail).
      rewrite Hmigs in Hin. apply list_elem_of_singleton in Hin as ->.
      by destruct (Hok w) as [_ ?]. }
  split_and!; [done|done| |].
  - by apply Hall.
  - apply Hall.
    by destruct (Migrate_shape (NewMigrator (GetMigrations s) sch)) as (? & ? & _ & -> & _).
Qed.

(** *** The command line *)

(** [main] ends with status 0 exactly when the command, ["status"] if none
    is given, is one of [migrate], [rollback] and [status]; every other
    command ends with status 1. *)
Theorem main_exit_status (Args : list string) :
  (main Args).2
  = if decide (command_of Args ∈ ["migrate"; "rollback"; "status"]) then 0%Z else 1%Z.
Proof.
  unfold main. generalize (command_of Args). intros command.
  destruct (String.eqb_spec command "migrate") as [->|Hm]; [vm_compute; reflexivity|].
  destruct (String.eqb_spec command "rollback") as [->|Hr]; [vm_compute; reflexivity|].
  destruct (String.eqb_spec command "status") as [->|Hs]; [vm_compute; reflexivity|].
  rewrite decide_False; [done|]. rewrite !elem_of_cons, elem_of_nil. naive_solver.
Qed.

(** Every process starts from an empty history.  So only the command
    [migrate] reaches the executor, with the one [Up] of the registered
    migration, recorded under batch 1; the commands [rollback] and
    [status], and every unknown command, end with an empty history, with
    [NextBatch] 1 and without any executor call: [rollback] has nothing to
    revert. *)
Theorem main_only_migrate_reaches_the_executor (Args : list string) :
  let mgr := (main Args).1.1 in
  if decide (command_of Args = "migrate") then
    calls (schema mgr) = [CallUp "001_create_users_table" true]
    ∧ History (db mgr) = {["001_create_users_table" := 1%Z]}
    ∧ NextBatch (db mgr) = 2%Z
  else
    calls (schema mgr) = [] ∧ History (db mgr) = ∅ ∧ NextBatch (db mgr) = 1%Z.
Proof.
  unfold main. generalize (command_of Args). intros command.
  case_decide as Hc.
  - subst command. split_and!; vm_compute; reflexivity.
  - destruct (String.eqb_spec command "migrate") as [|_]; [done|].
    destruct (String.eqb command "rollback"); [split_and!; vm_compute; reflexivity|].
    destruct (String.eqb command "status"); split_and!; vm_compute; reflexivity.
Qed.

End drivers.

(** ** The further properties at work *)

Lemma Migrate_error_witness :
  let m := demo [true; false] in
  let m' := (Migrate m).1 in
  let e := Errorf_w "failed to run migration " "002_b" (ErrorString "cannot apply 002_b") in
  Migrate m = (m', Some e)
  ∧ ∃ failed cause, failed ∈ pending_of m ∧ Unwrap e = Some cause.
Proof.
  intros m m' e.
  assert (Migrate m = (m', Some e)) as Hm by (vm_compute; reflexivity).
  split; [exact Hm|].
  destruct (Migrate_error_names_the_migration m m' e Hm)
    as (failed & cause & Hin & _ & Hunwrap & _).
  exists failed, cause. split; [exact Hin|exact Hunwrap].
Defined.

Lemma no_failure_witness :
  let m := NewSimulatedMigrator (GetMigrations SimulatedSchema) in
  (∀ mig, mig ∈ migrations m → never_fails mig)
  ∧ (Migrate m).2 = None ∧ (Rollback m).2 = None.
Proof.
  intros m.
  assert (∀ mig, mig ∈ migrations m → never_fails mig) as Hok.
  { intros mig Hin. simpl in Hin. apply list_elem_of_singleton in Hin as ->.
    intros w. split; reflexivity. }
  split; [exact Hok|].
  exact (no_failure_without_failing_calls m Hok).
Defined.

Lemma run_never_orphans_witness :
  let m0 := demo [true; false] in
  let tr := [RolledBack (Rollback (Migrate m0).1).2; Migrated (Migrate m0).2] in
  let m := (Rollback (Migrate m0).1).1 in
  run m0 tr m
  ∧ (∀ n : string, is_Some (History (db m) !! n) → n ∈ Name <$> demo_migrations).
Proof.
  intros m0 tr m.
  assert (run m0 tr m) as Hrun by apply run_Rollback, run_Migrate, run_start.
  split; [exact Hrun|].
  exact (proj1 (run_never_orphans_a_batch demo_migrations (fresh_schema [true; false])
                  tr m Hrun)).
Defined.

Lemma history_matches_call_log_witness :
  let m0 := demo [true; false; true; true; false] in
  let tr := [RolledBack (Rollback (Migrate (Migrate m0).1).1).2;
             Migrated (Migrate (Migrate m0).1).2; Migrated (Migrate m0).2] in
  let m := (Rollback (Migrate (Migrate m0).1).1).1 in
  run m0 tr m
  ∧ ∀ n : string, is_Some (History (db m) !! n) ↔ n ∈ applied_order (calls (schema m)).
Proof.
  intros m0 tr m.
  assert (run m0 tr m) as Hrun by apply run_Rollback, run_Migrate, run_Migrate, run_start.
  split; [exact Hrun|].
  exact (history_matches_call_log demo_migrations [true; false; true; true; false] tr m Hrun).
Defined.

Lemma rollback_then_migrate_witness :
  let m := (Migrate (demo [])).1 in
  let m1 := (Rollback m).1 in
  let m2 := (Migrate (with_world [] m1)).1 in
  pending_of m = [] ∧ GetLastBatch (db m) ≠ 0%Z
  ∧ Rollback m = (m1, None) ∧ Migrate (with_world [] m1) = (m2, None)
  ∧ History (db m2) = History (db m) ∧ NextBatch (db m2) = NextBatch (db m).
Proof.
  intros m m1 m2.
  assert (pending_of m = []) as H1 by (vm_compute; reflexivity).
  assert (GetLastBatch (db m) ≠ 0%Z) as H2 by (vm_compute; discriminate).
  assert (NextBatch (db m) = (GetLastBatch (db m) + 1)%Z) as H3 by (vm_compute; reflexivity).
  assert (NextBatch (db m) ≤ max_int)%Z as H4 by (vm_compute; discriminate).
  assert (∀ n : string, History (db m) !! n = Some (GetLastBatch (db m)) →
            ∃ mig, mig ∈ migrations m ∧ Name mig = n) as H5.
  { intros n Hn.
    assert (run (demo []) [Migrated (Migrate (demo [])).2] m) as Hrun
      by apply run_Migrate, run_start.
    exact (run_history_registered (demo []) _ m eq_refl Hrun n _ Hn). }
  assert (Rollback m = (m1, None)) as H6 by (vm_compute; reflexivity).
  assert (Migrate (with_world [] m1) = (m2, None)) as H7 by (vm_compute; reflexivity).
  split; [exact H1|]. split; [exact H2|]. split; [exact H6|]. split; [exact H7|].
  destruct (rollback_then_migrate_restores m m1 m2 [] H1 H2 H3 H4 H5 H6 H7)
    as (Hhist & Hnext & _).
  split; [exact Hhist|exact Hnext].
Defined.


Lemma CreateUsersTable_witness :
  SQLiteSchema ∈ [SimulatedSchema; SQLiteSchema; MySQLSchema; PostgresSchema]
  ∧ (Migrate (NewMigrator (GetMigrations SQLiteSchema) (fresh_schema []))).2 = None.
Proof.
  assert (SQLiteSchema ∈ [SimulatedSchema; SQLiteSchema; MySQLSchema; PostgresSchema]) as Hin.
  { apply list_elem_of_further, list_elem_of_here. }
  split; [exact Hin|].
  destruct (CreateUsersTable_never_fails SQLiteSchema (fresh_schema []) Hin)
    as (_ & _ & Hm & _).
  exact Hm.
Defined.

Section more_composites.
Context {World : Type}.
Implicit Types (m : Migrator World) (mig : Migration World) (tr : list event).

(** After a [Migrate] that returned [nil] on a migrator with at least one
    registered migration, [Status] prints every registered migration as
    run, with its batch, and closes with the line "fully up to date". *)
Theorem status_after_migrate m m1 :
  Migrate m = (m1, None) →
  migrations m ≠ [] →
  FullyUpToDate ∈ (Status m1).2
  ∧ ∀ mig, mig ∈ migrations m →
      ∃ k : Z, History (db m1) !! Name mig = Some k
               ∧ Ran (Name mig) k ∈ (Status m1).2.
Proof.
  intros Hm Hne.
  assert (migrations m1 = migrations m ∧ pending_of m1 = []) as [Hmigs Hnone].
  { apply Migrate_ok in Hm as [[Hp ->]|(_ & Hmigs & Hhist & _)]; [done|].
    split; [done|].
    rewrite (pending_after_record (NextBatch (db m)) m m1 (pending_of m) []);
      [done|by rewrite app_nil_r|done|done]. }
  assert (∀ mig, mig ∈ migrations m → is_Some (History (db m1) !! Name mig)) as Hall.
  { intros mig Hin. apply not_eq_None_Some. intros Hn.
    assert (mig ∈ pending_of m1) as Hp by (apply elem_of_pending_of; by rewrite Hmigs).
    rewrite Hnone in Hp. by apply elem_of_nil in Hp. }
  assert (GetRanMigrations (db m1) ≠ []) as Hran.
  { rewrite GetRanMigrations_nil. intros Hempty.
    destruct (migrations m) as [|mig ?] eqn:Hl; [done|].
    destruct (Hall mig) as [k Hk]; [by left|]. by rewrite Hempty, lookup_empty in Hk. }
  rewrite Status_output, Hnone. simpl.
  destruct (length (GetRanMigrations (db m1)) =? 0)%nat eqn:Hlen.
  { by apply length_eqb_0 in Hlen. }
  simpl. split.
  - do 3 apply list_elem_of_further. apply elem_of_app. right. by left.
  - intros mig Hin. destruct (Hall mig Hin) as [k Hk]. exists k. split; [done|].
    do 3 apply list_elem_of_further. apply elem_of_app. left.
    apply list_elem_of_fmap. exists mig. rewrite Hmigs. split; [|done].
    unfold status_row. by rewrite Hk.
Qed.

(** In a run of a migrator built by [NewMigrator] with fewer than
    [2^63 - 1] calls of [Migrate]: [NextBatch] is at most one more than the
    number of [Migrate] calls made, and [Rollback] never raises it. *)
Theorem NextBatch_advances_only_by_migrate (migs : list (Migration World)) sch0 tr m :
  run (NewMigrator migs sch0) tr m →
  (Z.of_nat (migrate_calls tr) < max_int)%Z →
  (NextBatch (db m) ≤ Z.of_nat (migrate_calls tr) + 1)%Z
  ∧ (NextBatch (db (Rollback m).1) ≤ NextBatch (db m))%Z.
Proof.
  intros Hrun Hlen.
  destruct (ledger_inv_run (NewMigrator migs sch0) tr m eq_refl Hrun Hlen)
    as [Hnext Hbatch _ _].
  split; [lia|].
  destruct (Rollback_shape m) as (_ & _ & _ & _ & _ & [[-> _]|(_ & _ & _ & Hne & ->)]); [lia|].
  destruct (GetLastBatch_witness _ Hne) as [n Hn%Hbatch]. lia.
Qed.

End more_composites.

Lemma status_after_migrate_witness :
  let m := demo [] in
  let m1 := (Migrate m).1 in
  Migrate m = (m1, None) ∧ migrations m ≠ [] ∧ FullyUpToDate ∈ (Status m1).2.
Proof.
  intros m m1.
  assert (Migrate m = (m1, None)) as Hm by (vm_compute; reflexivity).
  assert (migrations m ≠ []) as Hne by (vm_compute; discriminate).
  split; [exact Hm|]. split; [exact Hne|].
  exact (proj1 (status_after_migrate m m1 Hm Hne)).
Defined.

Lemma NextBatch_advances_witness :
  let m0 := demo [true; false] in
  let tr := [RolledBack (Rollback (Migrate m0).1).2; Migrated (Migrate m0).2] in
  let m := (Rollback (Migrate m0).1).1 in
  run m0 tr m ∧ (Z.of_nat (migrate_calls tr) < max_int)%Z
  ∧ (NextBatch (db m) ≤ Z.of_nat (migrate_calls tr) + 1)%Z.
Proof.
  intros m0 tr m.
  assert (run m0 tr m) as Hrun by apply run_Rollback, run_Migrate, run_start.
  assert (Z.of_nat (migrate_calls tr) < max_int)%Z as Hlen by (vm_compute; reflexivity).
  split; [exact Hrun|]. split; [exact Hlen|].
  exact (proj1 (NextBatch_advances_only_by_migrate demo_migrations
                  (fresh_schema [true; false]) tr m Hrun Hlen)).
Defined.
